(** * HapTune: the curve engine of [haptune_main.py]

    A shallow embedding of the numerical core of HapTune: the ordered
    point set of [PlotCanvas] with its undo history, the resampling
    operations ([interpolate_points], [downsample_points]), the
    multi-tone oscillator of [App.generate_multi_frequency_vibration]
    and the magnitude spectrum of
    [VibrationSettingsWindow.plot_vibration_and_dft].

    Coordinates are Python floats in the program; they are modelled by
    exact rationals ([Q]), compared with the numeric equality [Qeq]
    (Python's [==] on numbers), and synthesized samples by real numbers
    ([R]).  Sample values are thus modelled without rounding.  Sample
    counts are where rounding shows, a product being truncated by
    [int]; they are computed in IEEE 754 double precision on the
    doubles nearest to the coordinates. *)

From Stdlib Require Import List ZArith QArith Bool Lia.
From Stdlib Require Import Sorted Permutation.
From Stdlib Require Import Reals Qreals Psatz.
From Stdlib Require Import Floats.SpecFloat.
Import ListNotations.

Local Open Scope Q_scope.

(** ** Points and Python's tuple comparison *)

Definition Point : Type := (Q * Q)%type.

Definition px (p : Point) : Q := fst p.
Definition py (p : Point) : Q := snd p.

Definition Qlt_bool (a b : Q) : bool := negb (Qle_bool b a).

(** [p == q] on 2-tuples of numbers. *)
Definition point_eqb (p q : Point) : bool :=
  Qeq_bool (px p) (px q) && Qeq_bool (py p) (py q).

(** [p < q] on 2-tuples: the first component that differs decides. *)
Definition point_ltb (p q : Point) : bool :=
  if Qeq_bool (px p) (px q) then Qlt_bool (py p) (py q)
  else Qlt_bool (px p) (px q).

(** [point in l] *)
Definition point_in (p : Point) (l : list Point) : bool :=
  existsb (fun q => point_eqb q p) l.

(** [l.remove(point)]: drops the first element equal to [point].  It is
    only called under [if point in l], so the [ValueError] of an absent
    element never arises; on an absent element this returns [l]. *)
Fixpoint list_remove (p : Point) (l : list Point) : list Point :=
  match l with
  | [] => []
  | q :: l' => if point_eqb q p then l' else q :: list_remove p l'
  end.

(** [l.sort()]: a stable sort by [<] on tuples.  A stable sort of a
    list is unique; it is computed here by insertion, an element being
    placed before the first element that is not smaller than it. *)
Fixpoint insert (p : Point) (l : list Point) : list Point :=
  match l with
  | [] => [p]
  | q :: l' => if point_ltb q p then q :: insert p l' else p :: q :: l'
  end.

Fixpoint list_sort (l : list Point) : list Point :=
  match l with
  | [] => []
  | p :: l' => insert p (list_sort l')
  end.

(** "Sorted ascending by x". *)
Definition x_le (p q : Point) : Prop := px p <= px q.
Definition sorted_by_x (l : list Point) : Prop := Sorted x_le l.

(** Sorted in the order of [list.sort()] itself (x, then y). *)
Definition tuple_le (p q : Point) : Prop := point_ltb q p = false.
Definition sorted_tuples (l : list Point) : Prop := Sorted tuple_le l.

(** ** The state of [PlotCanvas]

    [on_load_csv_clicked] and [load_data_from_excel] assign one list
    object to both [points] and [original_points]; in-place updates of
    [self.points] ([append], [remove], [sort]) then reach the original
    too, until [self.points] is rebound to a new list.  [Shared] is that
    state, [Separate] the state of two distinct list objects. *)
Inductive Store : Type :=
| Shared (l : list Point)
| Separate (pts orig : list Point).

Definition store_points (st : Store) : list Point :=
  match st with Shared l => l | Separate pts _ => pts end.

Definition store_original (st : Store) : list Point :=
  match st with Shared l => l | Separate _ orig => orig end.

(** In-place mutation of the list named by [self.points]. *)
Definition mutate_points (f : list Point -> list Point) (st : Store) : Store :=
  match st with
  | Shared l => Shared (f l)
  | Separate pts orig => Separate (f pts) orig
  end.

(** [self.points = l]: rebinding to a new list object. *)
Definition rebind_points (l : list Point) (st : Store) : Store :=
  Separate l (store_original st).

Record PlotCanvas : Type := mkCanvas {
  store : Store;
  history : list (list Point);           (* last element = top *)
  interpolated_points : option (list Point);  (* [None]: attribute not set *)
  smoothing_spline : option (Q -> Q);         (* [None]: attribute not set *)
  smoothing_factor : option Q
}.

Definition points (s : PlotCanvas) : list Point := store_points (store s).
Definition original_points (s : PlotCanvas) : list Point :=
  store_original (store s).

Definition with_store (st : Store) (s : PlotCanvas) : PlotCanvas :=
  mkCanvas st (history s) (interpolated_points s) (smoothing_spline s)
           (smoothing_factor s).

Definition with_history (h : list (list Point)) (s : PlotCanvas) : PlotCanvas :=
  mkCanvas (store s) h (interpolated_points s) (smoothing_spline s)
           (smoothing_factor s).

Definition with_interpolated (ip : option (list Point)) (s : PlotCanvas)
  : PlotCanvas :=
  mkCanvas (store s) (history s) ip (smoothing_spline s) (smoothing_factor s).

(** ** Point edits and undo *)

(** [self.history.append(list(self.points))] *)
Definition record_history (s : PlotCanvas) : PlotCanvas :=
  with_history (history s ++ [points s]) s.

(** [self.points.sort()]; the drawing that follows has no effect on the
    state. *)
Definition update_plot (s : PlotCanvas) : PlotCanvas :=
  with_store (mutate_points list_sort (store s)) s.

Definition add_point (x y : Q) (s : PlotCanvas) : PlotCanvas :=
  let s1 := record_history s in
  let s2 := with_store (mutate_points (fun l => l ++ [(x, y)]) (store s1)) s1 in
  update_plot s2.

Definition delete_point (p : Point) (s : PlotCanvas) : PlotCanvas :=
  let s1 := record_history s in
  if point_in p (points s1) then
    update_plot (with_store (mutate_points (list_remove p) (store s1)) s1)
  else s1.

Definition move_point (old_point new_point : Point) (s : PlotCanvas)
  : PlotCanvas :=
  let s1 := record_history s in
  if point_in old_point (points s1) then
    let s2 := with_store (mutate_points (list_remove old_point) (store s1)) s1 in
    let s3 := with_store
                (mutate_points (fun l => l ++ [new_point]) (store s2)) s2 in
    update_plot s3
  else s1.

(** [if self.history: self.points = self.history.pop(); self.update_plot()] *)
Definition undo (s : PlotCanvas) : PlotCanvas :=
  match rev (history s) with
  | [] => s
  | top :: rest =>
      update_plot
        (with_store (rebind_points top (store s)) (with_history (rev rest) s))
  end.

(** [App.reset_plot] *)
Definition reset_plot (s : PlotCanvas) : PlotCanvas :=
  match original_points s with
  | [] => update_plot (with_store (rebind_points [(0, 0)] (store s)) s)
  | _ :: _ =>
      update_plot (with_store (rebind_points (original_points s) (store s)) s)
  end.

(** [App.on_load_csv_clicked], once the file is parsed into [pts]: an
    empty result leaves the canvas as it is. *)
Definition load_points (pts : list Point) (s : PlotCanvas) : PlotCanvas :=
  match pts with
  | [] => s
  | _ :: _ => update_plot (with_store (Shared pts) s)
  end.

(** [PlotCanvas.__init__] followed by [plot_initial]. *)
Definition initial_canvas : PlotCanvas :=
  update_plot (mkCanvas (Separate [(0, 0)] [(0, 0)]) [] None None None).

(** The three point edits, as commands of the presentation layer. *)
Inductive Edit : Type :=
| Add (x y : Q)
| Move (old_point new_point : Point)
| Delete (p : Point).

Definition apply_edit (e : Edit) (s : PlotCanvas) : PlotCanvas :=
  match e with
  | Add x y => add_point x y s
  | Move o n => move_point o n s
  | Delete p => delete_point p s
  end.

(** The states after each call of a sequence of edits, in order. *)
Fixpoint run_edits (es : list Edit) (s : PlotCanvas) : list PlotCanvas :=
  match es with
  | [] => []
  | e :: es' => let s' := apply_edit e s in s' :: run_edits es' s'
  end.

(** ** Failures

    The operations below raise [ValueError] (or let a library error
    through); the surrounding handler reports it and the canvas keeps
    the state it had when the error was raised. *)
Inductive Error : Type :=
| InsufficientPoints      (* "Not enough points for interpolation ..." *)
| FitError                (* the spline constructor raised *)
| StrideTooLarge          (* "Downsample factor is too large ..." *)
| InsufficientResult      (* "Not enough points after downsampling." *)
| NoOriginalPoints        (* "No original points available ..." *)
| SliceStepZero           (* "slice step cannot be zero" *)
| EmptyReduction          (* [np.max] of an empty array *)
| EmptySignal             (* FFT of no samples *)
| ZeroRate.               (* [1.0 / 0] *)

Inductive Outcome : Type :=
| Done (s : PlotCanvas)
| Failed (e : Error) (s : PlotCanvas).

Definition final_state (o : Outcome) : PlotCanvas :=
  match o with Done s => s | Failed _ s => s end.

(** ** Downsampling *)

(** Every [k]-th element, [i] elements being skipped first. *)
Fixpoint take_every (k i : nat) (l : list Point) : list Point :=
  match l with
  | [] => []
  | p :: l' =>
      match i with
      | O => p :: take_every k (k - 1) l'
      | S i' => take_every k i' l'
      end
  end.

(** [l[::k]] for an integer [k]: a zero step raises, a negative step
    walks the list backwards from its last element. *)
Definition slice_step (l : list Point) (k : Z) : option (list Point) :=
  if (k =? 0)%Z then None
  else if (0 <? k)%Z then Some (take_every (Z.to_nat k) 0 l)
  else Some (take_every (Z.to_nat (- k)) 0 (rev l)).

Definition downsample_points (downsample_factor : Z) (s : PlotCanvas)
  : Outcome :=
  match original_points s with
  | [] => Failed NoOriginalPoints s
  | _ :: _ =>
      if (Z.of_nat (length (original_points s)) <=? downsample_factor)%Z
      then Failed StrideTooLarge s
      else
        match slice_step (original_points s) downsample_factor with
        | None => Failed SliceStepZero s
        | Some downsampled_points =>
            if (length downsampled_points <? 2)%nat
            then Failed InsufficientResult s
            else Done (update_plot
                         (with_store
                            (rebind_points downsampled_points (store s)) s))
        end
  end.

(** [ceil(n / k)] on naturals. *)
Definition ceil_div (n k : nat) : nat := (n + k - 1) / k.

(** ** Interpolation *)

(** [min(xs)] and [max(xs)]: the running value is replaced only by a
    strictly smaller (larger) item. *)
Definition py_min (xs : list Q) : Q :=
  match xs with
  | [] => 0
  | x :: r => fold_left (fun m a => if Qlt_bool a m then a else m) r x
  end.

Definition py_max (xs : list Q) : Q :=
  match xs with
  | [] => 0
  | x :: r => fold_left (fun m a => if Qlt_bool m a then a else m) r x
  end.

(** [all(np.diff(xs) > 0)] *)
Definition strictly_increasing (xs : list Q) : Prop := Sorted Qlt xs.

(** *** Double precision

    Binary64 numbers and their correctly rounded operations (round to
    nearest, ties to even), as the Standard Library specifies them. *)
Definition double : Type := spec_float.

Definition double_sub (a b : double) : double := SFsub 53 1024 a b.
Definition double_mul (a b : double) : double := SFmul 53 1024 a b.
Definition double_div (a b : double) : double := SFdiv 53 1024 a b.

(** The double nearest to an integer. *)
Definition double_of_Z (z : Z) : double := binary_normalize 53 1024 z 0 false.

(** The double the program holds for a coordinate: the double nearest
    to the rational, which is the rational itself when it is a double.
    The quotient is correctly rounded for a reduced numerator and a
    reduced denominator that are doubles themselves (below 2^53, or a
    power of two). *)
Definition double_of_Q (q : Q) : double :=
  double_div (double_of_Z (Qnum (Qred q))) (double_of_Z (Zpos (Qden (Qred q)))).

(** [int(d)]: truncation towards zero.  On an infinity or a NaN Python
    raises; coordinates of that size are outside the model, which
    counts 0 there. *)
Definition py_int (d : double) : Z :=
  match d with
  | S754_finite sign m e =>
      let v := match e with
               | Zneg k => Z.shiftr (Zpos m) (Zpos k)
               | _ => Z.shiftl (Zpos m) e
               end in
      if sign then (- v)%Z else v
  | _ => 0%Z
  end.

(** [np.linspace(a, b, n)]: [a + i * step] with [step = (b - a) / (n - 1)],
    the last sample being set to [b]. *)
Definition linspace (a b : Q) (n : nat) : list Q :=
  match n with
  | O => []
  | S O => [a]
  | S m =>
      map (fun i => a + inject_Z (Z.of_nat i) * ((b - a) / inject_Z (Z.of_nat m)))
          (seq 0 m) ++ [b]
  end.

(** Which point list [interpolate_points] reads. *)
Definition interp_source (s : PlotCanvas) : option (list Point) :=
  match points s with
  | _ :: _ => Some (points s)
  | [] =>
      match original_points s with
      | _ :: _ => Some (original_points s)
      | [] => None
      end
  end.

(** [max(int((max_x - min_x) * points_per_degree), 2)] *)
Definition total_points (pts : list Point) (points_per_degree : Z) : Z :=
  let xs := map px pts in
  Z.max (py_int (double_mul
                   (double_sub (double_of_Q (py_max xs))
                               (double_of_Q (py_min xs)))
                   (double_of_Z points_per_degree)))
        2.

Definition sample (f : Q -> Q) (xs : list Q) : list Point :=
  map (fun x => (x, f x)) xs.

Section Fitting.

(** [scipy.interpolate.UnivariateSpline(x, y, k=3, s=s)]: the fitted
    function, or [None] when the constructor raises.  The fit is the
    library's; the engine only chooses its arguments. *)
Variable UnivariateSpline : list Q -> list Q -> Q -> option (Q -> Q).

Definition spline_function (pts : list Point) (s : PlotCanvas)
  : option (Q -> Q) :=
  match smoothing_spline s with
  | Some f => Some f
  | None => UnivariateSpline (map px pts) (map py pts) 0
  end.

Definition interpolate_points (points_per_degree : Z) (s : PlotCanvas)
  : Outcome :=
  match interp_source s with
  | None => Done s
  | Some pts =>
      let xs := map px pts in
      match spline_function pts s with
      | None => Failed FitError s
      | Some f =>
          let x_new :=
            linspace (py_min xs) (py_max xs)
                     (Z.to_nat (total_points pts points_per_degree)) in
          Done (with_interpolated (Some (sample f x_new)) s)
      end
  end.

(** [App.perform_interpolation] *)
Definition perform_interpolation (points_per_degree : Z) (s : PlotCanvas)
  : Outcome :=
  if (length (points s) <? 4)%nat then Failed InsufficientPoints s
  else interpolate_points points_per_degree s.

(** [PlotCanvas.apply_smoothing]: the factor is stored first, so it
    stays stored when the fit raises. *)
Definition apply_smoothing (factor : Q) (s : PlotCanvas) : Outcome :=
  let s1 := mkCanvas (store s) (history s) (interpolated_points s)
                     (smoothing_spline s) (Some factor) in
  if (1 <? length (points s1))%nat then
    match UnivariateSpline (map px (points s1)) (map py (points s1)) factor with
    | None => Failed FitError s1
    | Some f =>
        Done (update_plot
                (mkCanvas (store s1) (history s1) (interpolated_points s1)
                          (Some f) (Some factor)))
    end
  else Done (update_plot s1).

End Fitting.

(** [App.clear_interpolation] *)
Definition clear_interpolation (s : PlotCanvas) : PlotCanvas :=
  update_plot (with_interpolated (Some []) s).

(** *** The specification's reading of interpolation

    The two definitions below follow the words of the specification,
    not the program; they are what the program is compared with. *)

(** "input is InterpolatedCurve if non-empty, else Curve, else
    OriginalCurve" *)
Definition spec_interp_source (s : PlotCanvas) : option (list Point) :=
  match interpolated_points s with
  | Some (p :: l) => Some (p :: l)
  | _ =>
      match points s with
      | _ :: _ => Some (points s)
      | [] =>
          match original_points s with
          | _ :: _ => Some (original_points s)
          | [] => None
          end
      end
  end.



(** *** An exact fit to run examples with

    The polynomial through the given nodes (Lagrange form).  It stands
    for the library's fit where an example needs a concrete one; like
    the library it refuses fewer than four nodes. *)
Definition lagrange_basis (xi : Q) (others : list Q) (x : Q) : Q :=
  fold_right (fun xj acc => acc * ((x - xj) / (xi - xj))) 1 others.

Fixpoint lagrange_aux (before xs ys : list Q) (x : Q) : Q :=
  match xs, ys with
  | xi :: xs', yi :: ys' =>
      yi * lagrange_basis xi (before ++ xs') x
      + lagrange_aux (before ++ [xi]) xs' ys' x
  | _, _ => 0
  end.

Definition polynomial_fit (xs ys : list Q) (s : Q) : option (Q -> Q) :=
  if (length xs <? 4)%nat then None
  else Some (fun x => Qred (lagrange_aux [] xs ys x)).

(** ** The multi-tone oscillator *)

(** The sample grid of the envelope:
    [np.linspace(x.min(), x.max(), int((x.max() - x.min()) * sampling_rate / 1000))].
    A negative count cannot arise, the span being non-negative. *)
Definition vibration_grid (base_points : list Point) (sampling_rate : Z)
  : list Q :=
  let xs := map px base_points in
  linspace (py_min xs) (py_max xs)
           (Z.to_nat
              (py_int (double_div
                         (double_mul
                            (double_sub (double_of_Q (py_max xs))
                                        (double_of_Q (py_min xs)))
                            (double_of_Z sampling_rate))
                         (double_of_Z 1000)))).

(** A tone: its frequency (an integer spin box) and its amplitude. *)
Definition Tone : Type := (Z * Q)%type.

(** The outcome of the normalization step, the branch taken being kept. *)
Inductive Normalized : Type :=
| Divided (v : list R)      (* [vibration / max_vib] was computed *)
| Untouched (v : list R).   (* the division was skipped *)

Definition samples_of (n : Normalized) : list R :=
  match n with Divided v => v | Untouched v => v end.

Section Oscillator.

Local Open Scope R_scope.

(** [amp * np.sin(2 * np.pi * freq * x_dense / sampling_rate)] *)
Definition tone_samples (sampling_rate : Z) (x_dense : list Q) (t : Tone)
  : list R :=
  map (fun x => Q2R (snd t)
                * sin (2 * PI * IZR (fst t) * Q2R x / IZR sampling_rate))
      x_dense.

(** [np.zeros_like(x_dense)] *)
Definition zeros (x_dense : list Q) : list R := map (fun _ => 0) x_dense.

(** Element-wise [u + v] of two arrays of one length. *)
Definition vec_add (u v : list R) : list R :=
  map (fun ab => fst ab + snd ab) (combine u v).

(** [vibration = np.zeros_like(x_dense)], then [vibration += ...] for
    each tone in turn. *)
Definition composite_oscillator (freqs_and_amps : list Tone)
           (sampling_rate : Z) (x_dense : list Q) : list R :=
  fold_left (fun v t => vec_add v (tone_samples sampling_rate x_dense t))
            freqs_and_amps (zeros x_dense).

(** [np.max(np.abs(v))]; [None] on an empty array, where NumPy raises. *)
Definition peak_abs (v : list R) : option R :=
  match map Rabs v with
  | [] => None
  | a :: l => Some (fold_left Rmax l a)
  end.

(** [max_vib = np.max(np.abs(vibration));
     if max_vib > 0: vibration = vibration / max_vib] *)
Definition normalize (vibration : list R) : option Normalized :=
  match peak_abs vibration with
  | None => None
  | Some max_vib =>
      if Rlt_dec 0 max_vib
      then Some (Divided (map (fun a => a / max_vib) vibration))
      else Some (Untouched vibration)
  end.

(** The oscillator of [generate_multi_frequency_vibration], from the
    zero array to the normalization. *)
Definition normalized_oscillator (freqs_and_amps : list Tone)
           (sampling_rate : Z) (x_dense : list Q) : option Normalized :=
  normalize (composite_oscillator freqs_and_amps sampling_rate x_dense).

(** ** The magnitude spectrum *)

(** [np.arange(lo, lo + n)] *)
Definition arange (lo : Z) (n : nat) : list Z :=
  map (fun i => (lo + Z.of_nat i)%Z) (seq 0 n).

(** [np.fft.fftfreq(n, d)]: the integers [0 .. (n-1)//2] followed by
    [-(n//2) .. -1], each times [1 / (n * d)]. *)
Definition fftfreq (n : nat) (d : Q) : list Q :=
  let val := (1 / (inject_Z (Z.of_nat n) * d))%Q in
  let N := Z.to_nat ((Z.of_nat n - 1) / 2 + 1) in
  map (fun k => (inject_Z k * val)%Q)
      (arange 0 N ++ arange (- Z.of_nat (n / 2)) (n / 2)).

(** Bin [k] of the discrete Fourier transform of [y], as (real,
    imaginary): the sum of [y_n * exp(-2 pi i k n / N)]. *)
Definition dft_bin (y : list R) (k : nat) : R * R :=
  let N := INR (length y) in
  fold_right
    (fun ny acc =>
       let w := 2 * PI * INR k * INR (fst ny) / N in
       (fst acc + snd ny * cos w, snd acc - snd ny * sin w))
    (0, 0) (combine (seq 0 (length y)) y).

(** [np.fft.fft(y)] *)
Definition fft (y : list R) : list (R * R) :=
  map (dft_bin y) (seq 0 (length y)).

(** [np.abs] of a complex number. *)
Definition Cabs (z : R * R) : R := sqrt (fst z * fst z + snd z * snd z).

(** The spectrum of [plot_vibration_and_dft]:
    [N = len(y); T = 1.0 / rate; yf = fft(y);
     xf = fftfreq(N, T)[:N//2]; mag = 2.0/N * abs(yf[:N//2])]. *)
Definition magnitude_spectrum (y : list R) (sampling_rate : Z)
  : Error + (list Q * list R) :=
  let N := length y in
  if (sampling_rate =? 0)%Z then inl ZeroRate
  else
    match N with
    | O => inl EmptySignal
    | S _ =>
        let T := (1 / inject_Z sampling_rate)%Q in
        let yf := fft y in
        let xf := firstn (N / 2) (fftfreq N T) in
        let mag := map (fun z => 2 / INR N * Cabs z) (firstn (N / 2) yf) in
        inr (xf, mag)
    end.

End Oscillator.

(** ** Example states *)

(** A loaded curve of five points on a line; nothing is in the history
    yet. *)
Definition line_canvas : PlotCanvas :=
  load_points [(0, 0); (1, 1); (2, 2); (3, 3); (4, 4)] initial_canvas.

(** Three points with strictly increasing x: two points added to the
    initial curve. *)
Definition three_point_canvas : PlotCanvas :=
  add_point 2 0 (add_point 1 1 initial_canvas).

(** The same curve, an earlier interpolation of five points being
    stored. *)
Definition shadowed_canvas : PlotCanvas :=
  mkCanvas (Separate [(0, 0); (1, 1); (2, 0)] [(0, 0)]) []
           (Some [(0, 0); (1 # 2, 1 # 2); (1, 1); (3 # 2, 1 # 2); (2, 0)])
           None None.

(** A loaded curve of four points over a span of 0.37. *)
Definition fractional_canvas : PlotCanvas :=
  load_points [(0, 0); (1 # 10, 1); (1 # 5, 0); (37 # 100, 1)] initial_canvas.


(** The curve of the specification's end-to-end scenario, loaded. *)
Definition scenario_canvas : PlotCanvas :=
  load_points [(0, 0); (10, 5); (20, 0); (30, -5); (40, 0)] initial_canvas.

(** The exact polynomial fit to the scenario's curve. *)
Definition scenario_fit : Q -> Q :=
  fun x => Qred (lagrange_aux [] (map px (points scenario_canvas))
                              (map py (points scenario_canvas)) x).

(** ** Further operations of the application

    The handlers of [App] that drive the point set, and the two
    synthesis routines. *)

(** [App.overall_reset]: both attributes are rebound to new empty
    lists; the reset to the default point that follows finds no
    original points. *)
Definition overall_reset (s : PlotCanvas) : PlotCanvas :=
  let s1 := update_plot (with_store (Separate [] []) s) in
  match original_points s1 with
  | [] => update_plot (with_store (rebind_points [(0, 0)] (store s1)) s1)
  | _ :: _ =>
      update_plot (with_store (rebind_points (original_points s1) (store s1)) s1)
  end.

(** [(p[0] - x) ** 2 + (p[1] - y) ** 2] *)
Definition sq_dist (x y : Q) (p : Point) : Q :=
  (px p - x) * (px p - x) + (py p - y) * (py p - y).

(** [App.find_closest_point]: [min(points, key=...)] keeps the first
    point of least key; [None] when there is no point. *)
Definition find_closest_point (x y : Q) (s : PlotCanvas) : option Point :=
  match points s with
  | [] => None
  | p :: l =>
      Some (fold_left
              (fun m q =>
                 if Qlt_bool (sq_dist x y q) (sq_dist x y m) then q else m)
              l p)
  end.

(** The part of [App] the mouse and key handlers use. *)
Record App : Type := mkApp {
  plot_canvas : PlotCanvas;
  selected_point : option Point
}.

(** A Matplotlib mouse event; [xdata], [ydata] are [None] outside the
    axes. *)
Record MouseEvent : Type := mkEvent {
  button : Z;
  xdata : option Q;
  ydata : option Q
}.

(** Truth value of [event.xdata]: [None] and [0.0] are false. *)
Definition truthy (v : option Q) : bool :=
  match v with
  | Some q => negb (Qeq_bool q 0)
  | None => false
  end.

Definition coordinate (v : option Q) : Q :=
  match v with Some q => q | None => 0 end.

(** [App.on_click]; [ctrl] is [modifiers == Qt.ControlModifier]. *)
Definition on_click (ctrl : bool) (ev : MouseEvent) (a : App) : App :=
  if (button ev =? 1)%Z && ctrl then
    if truthy (xdata ev) && truthy (ydata ev) then
      mkApp (add_point (coordinate (xdata ev)) (coordinate (ydata ev))
                       (plot_canvas a))
            (selected_point a)
    else a
  else if (button ev =? 1)%Z then
    if truthy (xdata ev) && truthy (ydata ev) then
      mkApp (plot_canvas a)
            (find_closest_point (coordinate (xdata ev)) (coordinate (ydata ev))
                                (plot_canvas a))
    else a
  else a.

(** [App.on_move] *)
Definition on_move (ev : MouseEvent) (a : App) : App :=
  match selected_point a with
  | Some sel =>
      if (button ev =? 1)%Z && (truthy (xdata ev) && truthy (ydata ev)) then
        let new_point := (coordinate (xdata ev), coordinate (ydata ev)) in
        mkApp (move_point sel new_point (plot_canvas a)) (Some new_point)
      else a
  | None => a
  end.

(** The keys [App.keyPressEvent] reacts to. *)
Inductive Key : Type := CtrlZ | DeleteKey | OtherKey.

Definition keyPressEvent (k : Key) (a : App) : App :=
  match k with
  | CtrlZ => mkApp (undo (plot_canvas a)) (selected_point a)
  | DeleteKey =>
      match selected_point a with
      | Some sel => mkApp (delete_point sel (plot_canvas a)) None
      | None => a
      end
  | OtherKey => a
  end.

(** The curve the synthesis reads: the stored interpolation when it is
    set and non-empty, else the points. *)
Definition base_points (s : PlotCanvas) : list Point :=
  match interpolated_points s with
  | Some (p :: l) => p :: l
  | _ => points s
  end.

(** [all(np.diff(xs) > 0)] as the test the program runs. *)
Fixpoint all_diff_pos (xs : list Q) : bool :=
  match xs with
  | a :: (b :: _) as r => Qlt_bool a b && all_diff_pos r
  | _ => true
  end.

Inductive SynthError : Type :=
| NoFrequencies        (* "No frequencies selected for vibration." *)
| NeedTwoPoints        (* "Need at least two points to generate vibration." *)
| EnvelopeFitError     (* the spline constructor raised *)
| PeakOfEmpty.         (* [np.max] of an empty array *)

(** What a failed synthesis has stored by the time it raises: the
    envelope arrays, if they were assigned before the error. *)
Definition StoredEnvelope : Type := option (list Q * list Q).

(** What a synthesis stores on the canvas. *)
Record Synthesis : Type := mkSynthesis {
  envelope_x : list Q;
  envelope_y : list Q;
  vibration_signal : list (Q * R)
}.

(** [y_dense * vibration * amplitude], element by element. *)
Definition modulate (y_dense : list Q) (vibration : list R) (amplitude : Q)
  : list R :=
  map (fun yv => (Q2R (fst yv) * snd yv * Q2R amplitude)%R)
      (combine y_dense vibration).

(** [np.sin(2 * np.pi * frequency * x_dense / sampling_rate)] *)
Definition sine_wave (frequency sampling_rate : Z) (x_dense : list Q) : list R :=
  map (fun x => sin (2 * PI * IZR frequency * Q2R x / IZR sampling_rate)%R)
      x_dense.

Section Synthesis.

(** The two library fits: the spline constructor as before, and
    [np.interp(x, xp, fp)] at one abscissa [x]. *)
Variable UnivariateSpline : list Q -> list Q -> Q -> option (Q -> Q).
Variable np_interp : list Q -> list Q -> Q -> Q.

(** The envelope over the grid: the exact spline for at least four
    points of strictly increasing x, else the linear interpolation. *)
Definition envelope (base : list Point) (x_dense : list Q) : option (list Q) :=
  let xs := map px base in
  let ys := map py base in
  if (4 <=? length xs)%nat && all_diff_pos xs then
    match UnivariateSpline xs ys 0 with
    | Some spline => Some (map spline x_dense)
    | None => None
    end
  else Some (map (np_interp xs ys) x_dense).

(** [App.generate_multi_frequency_vibration]: on success what is
    stored, and the canvas after the [update_plot] that follows; on an
    error the envelope stored so far.  The envelope arrays are assigned
    as soon as they are computed, before the oscillator is built, so
    they are stored already when [np.max] raises on an empty grid. *)
Definition generate_multi_frequency_vibration
           (freqs_and_amps : list Tone) (sampling_rate : Z) (global_amp : Q)
           (s : PlotCanvas)
  : (SynthError * StoredEnvelope) + (Synthesis * PlotCanvas) :=
  match freqs_and_amps with
  | [] => inl (NoFrequencies, None)
  | _ :: _ =>
      let base := base_points s in
      if (length base <? 2)%nat then inl (NeedTwoPoints, None)
      else
        let x_dense := vibration_grid base sampling_rate in
        match envelope base x_dense with
        | None => inl (EnvelopeFitError, None)
        | Some y_dense =>
            match normalized_oscillator freqs_and_amps sampling_rate x_dense with
            | None => inl (PeakOfEmpty, Some (x_dense, y_dense))
            | Some vibration =>
                inr (mkSynthesis x_dense y_dense
                       (combine x_dense
                                (modulate y_dense (samples_of vibration)
                                          global_amp)),
                     update_plot s)
            end
        end
  end.

(** [App.generate_vibration_signal]: one tone, no normalization.  Its
    errors are raised before anything is assigned. *)
Definition generate_vibration_signal
           (frequency : Z) (amplitude_scale : Q) (sampling_rate : Z)
           (s : PlotCanvas)
  : (SynthError * StoredEnvelope) + (Synthesis * PlotCanvas) :=
  let base := base_points s in
  if (length base <? 2)%nat then inl (NeedTwoPoints, None)
  else
    let x_dense := vibration_grid base sampling_rate in
    match envelope base x_dense with
    | None => inl (EnvelopeFitError, None)
    | Some y_dense =>
        inr (mkSynthesis x_dense y_dense
               (combine x_dense
                        (modulate y_dense
                                  (sine_wave frequency sampling_rate x_dense)
                                  amplitude_scale)),
             update_plot s)
    end.

End Synthesis.


(** *** A linear interpolation to run examples with

    Piecewise-linear interpolation over nodes of increasing abscissa,
    the first and the last value being kept outside the nodes.  It
    stands for [np.interp] where an example needs a concrete one. *)
Fixpoint linear_interp (xp fp : list Q) (x : Q) : Q :=
  match xp, fp with
  | x0 :: ((x1 :: _) as xp'), y0 :: ((y1 :: _) as fp') =>
      if Qle_bool x x0 then y0
      else if Qlt_bool x x1 then y0 + (x - x0) * ((y1 - y0) / (x1 - x0))
      else linear_interp xp' fp' x
  | _ :: _, y0 :: _ => y0
  | _, _ => 0
  end.

(** Two points, four units apart. *)
Definition two_point_canvas : PlotCanvas := add_point 4 1 initial_canvas.


(** ** The states the program can be in *)

(** [App.load_data_from_excel], once the sheet is read into [pts]: both
    attributes name the list read, even an empty one. *)
Definition load_data_from_excel (pts : list Point) (s : PlotCanvas)
  : PlotCanvas :=
  update_plot (with_store (Shared pts) s).

(** The canvases that the operations of the program build from the
    initial one.  Every operation that writes the canvas is listed;
    the syntheses and the axis settings write it through [update_plot]
    only. *)
Inductive reachable : PlotCanvas -> Prop :=
| reach_initial : reachable initial_canvas
| reach_edit (e : Edit) (s : PlotCanvas) :
    reachable s -> reachable (apply_edit e s)
| reach_undo (s : PlotCanvas) : reachable s -> reachable (undo s)
| reach_reset (s : PlotCanvas) : reachable s -> reachable (reset_plot s)
| reach_overall_reset (s : PlotCanvas) :
    reachable s -> reachable (overall_reset s)
| reach_load_csv (pts : list Point) (s : PlotCanvas) :
    reachable s -> reachable (load_points pts s)
| reach_load_excel (pts : list Point) (s : PlotCanvas) :
    reachable s -> reachable (load_data_from_excel pts s)
| reach_downsample (k : Z) (s : PlotCanvas) :
    reachable s -> reachable (final_state (downsample_points k s))
| reach_interpolate (fit : list Q -> list Q -> Q -> option (Q -> Q))
                    (ppd : Z) (s : PlotCanvas) :
    reachable s -> reachable (final_state (perform_interpolation fit ppd s))
| reach_smoothing (fit : list Q -> list Q -> Q -> option (Q -> Q))
                  (factor : Q) (s : PlotCanvas) :
    reachable s -> reachable (final_state (apply_smoothing fit factor s))
| reach_clear_interpolation (s : PlotCanvas) :
    reachable s -> reachable (clear_interpolation s)
| reach_update_plot (s : PlotCanvas) :
    reachable s -> reachable (update_plot s).

(** * Properties *)

(** ** Sorting *)

Lemma Qlt_bool_true (a b : Q) : Qlt_bool a b = true <-> a < b.
Proof.
  unfold Qlt_bool. rewrite negb_true_iff. split; intro H.
  - apply Qnot_le_lt. intro Hle. apply Qle_bool_iff in Hle. congruence.
  - destruct (Qle_bool b a) eqn:E; [|reflexivity].
    apply Qle_bool_iff in E. exfalso. apply (Qlt_not_le _ _ H E).
Qed.

Lemma Qlt_bool_false (a b : Q) : Qlt_bool a b = false <-> b <= a.
Proof.
  unfold Qlt_bool. rewrite negb_false_iff. apply Qle_bool_iff.
Qed.

(** The tuple order, spelled out. *)
Lemma tuple_le_spec (p q : Point) :
  tuple_le p q <-> px p < px q \/ (px p == px q /\ py p <= py q).
Proof.
  unfold tuple_le, point_ltb.
  destruct (Qeq_bool (px q) (px p)) eqn:E.
  - apply Qeq_bool_iff in E. rewrite Qlt_bool_false. split.
    + intro H. right. split; [symmetry; exact E | exact H].
    + intros [H | [_ H]]; [|exact H]. rewrite E in H.
      exfalso. apply (Qlt_irrefl _ H).
  - apply Qeq_bool_neq in E. rewrite Qlt_bool_false. split.
    + intro H. left. apply Qle_lt_or_eq in H. destruct H as [H | H]; [exact H|].
      exfalso. apply E. symmetry. exact H.
    + intros [H | [H _]]; [apply Qlt_le_weak; exact H|].
      exfalso. apply E. symmetry. exact H.
Qed.

Lemma tuple_le_x (p q : Point) : tuple_le p q -> x_le p q.
Proof.
  rewrite tuple_le_spec. unfold x_le. intros [H | [H _]].
  - apply Qlt_le_weak. exact H.
  - rewrite H. apply Qle_refl.
Qed.

Lemma tuple_le_total (p q : Point) : point_ltb q p = true -> tuple_le q p.
Proof.
  intro H. apply tuple_le_spec. unfold point_ltb in H.
  destruct (Qeq_bool (px q) (px p)) eqn:E.
  - apply Qeq_bool_iff in E. apply Qlt_bool_true in H.
    right. split; [exact E | apply Qlt_le_weak; exact H].
  - apply Qlt_bool_true in H. left. exact H.
Qed.

Lemma tuple_le_trans (p q r : Point) :
  tuple_le p q -> tuple_le q r -> tuple_le p r.
Proof.
  rewrite !tuple_le_spec. intros [H1 | [H1 H1']] [H2 | [H2 H2']].
  - left. eapply Qlt_trans; eassumption.
  - left. rewrite <- H2. exact H1.
  - left. rewrite H1. exact H2.
  - right. split; [rewrite H1; exact H2 | eapply Qle_trans; eassumption].
Qed.

Lemma insert_hd (p a : Point) (l : list Point) :
  tuple_le a p -> HdRel tuple_le a l -> HdRel tuple_le a (insert p l).
Proof.
  intros Hap Hl. destruct l as [|q l']; simpl.
  - constructor. exact Hap.
  - destruct (point_ltb q p); constructor.
    + inversion Hl; assumption.
    + exact Hap.
Qed.

Lemma insert_sorted (p : Point) (l : list Point) :
  sorted_tuples l -> sorted_tuples (insert p l).
Proof.
  unfold sorted_tuples. induction l as [|q l' IH]; simpl; intro Hs.
  - repeat constructor.
  - inversion Hs as [|? ? Hs' Hhd]; subst.
    destruct (point_ltb q p) eqn:E.
    + constructor; [apply IH; exact Hs'|].
      apply insert_hd; [apply tuple_le_total; exact E | exact Hhd].
    + constructor; [exact Hs|]. constructor. exact E.
Qed.

Lemma list_sort_sorted (l : list Point) : sorted_tuples (list_sort l).
Proof.
  induction l as [|p l' IH]; simpl.
  - constructor.
  - apply insert_sorted. exact IH.
Qed.

Lemma sorted_tuples_by_x (l : list Point) : sorted_tuples l -> sorted_by_x l.
Proof.
  unfold sorted_tuples, sorted_by_x. induction 1 as [|a l Hs IH Hhd].
  - constructor.
  - constructor; [exact IH|].
    destruct Hhd; constructor. apply tuple_le_x. assumption.
Qed.

Lemma list_sort_by_x (l : list Point) : sorted_by_x (list_sort l).
Proof. apply sorted_tuples_by_x, list_sort_sorted. Qed.

(** Sorting a list that is already in tuple order changes nothing. *)
Lemma list_sort_id (l : list Point) : sorted_tuples l -> list_sort l = l.
Proof.
  unfold sorted_tuples. induction 1 as [|a l Hs IH Hhd]; simpl.
  - reflexivity.
  - rewrite IH. destruct Hhd as [|b l' Hab]; simpl.
    + reflexivity.
    + unfold tuple_le in Hab. rewrite Hab. reflexivity.
Qed.

Lemma insert_length (p : Point) (l : list Point) :
  length (insert p l) = S (length l).
Proof.
  induction l as [|q l' IH]; simpl; [reflexivity|].
  destruct (point_ltb q p); simpl; [rewrite IH|]; reflexivity.
Qed.

Lemma list_sort_length (l : list Point) : length (list_sort l) = length l.
Proof.
  induction l as [|p l' IH]; simpl; [reflexivity|].
  rewrite insert_length, IH. reflexivity.
Qed.

(** ** The point set *)

Lemma points_update_plot (s : PlotCanvas) :
  points (update_plot s) = list_sort (points s).
Proof. unfold points, update_plot. simpl. destruct (store s); reflexivity. Qed.

Lemma points_mutate (f : list Point -> list Point) (s : PlotCanvas) :
  points (with_store (mutate_points f (store s)) s) = f (points s).
Proof. unfold points. simpl. destruct (store s); reflexivity. Qed.

Lemma points_record_history (s : PlotCanvas) :
  points (record_history s) = points s.
Proof. reflexivity. Qed.

Lemma add_point_sorted (x y : Q) (s : PlotCanvas) :
  sorted_by_x (points (add_point x y s)).
Proof. unfold add_point. rewrite points_update_plot. apply list_sort_by_x. Qed.

Lemma delete_point_sorted (p : Point) (s : PlotCanvas) :
  sorted_by_x (points s) -> sorted_by_x (points (delete_point p s)).
Proof.
  intro Hs. unfold delete_point.
  destruct (point_in p (points (record_history s))).
  - rewrite points_update_plot. apply list_sort_by_x.
  - exact Hs.
Qed.

Lemma move_point_sorted (o n : Point) (s : PlotCanvas) :
  sorted_by_x (points s) -> sorted_by_x (points (move_point o n s)).
Proof.
  intro Hs. unfold move_point.
  destruct (point_in o (points (record_history s))).
  - rewrite points_update_plot. apply list_sort_by_x.
  - exact Hs.
Qed.

Lemma apply_edit_sorted (e : Edit) (s : PlotCanvas) :
  sorted_by_x (points s) -> sorted_by_x (points (apply_edit e s)).
Proof.
  destruct e; simpl; intro Hs.
  - apply add_point_sorted.
  - apply move_point_sorted; exact Hs.
  - apply delete_point_sorted; exact Hs.
Qed.

(** ** States the program builds

    Every assignment to [self.points] in the program is followed by
    [update_plot], so the curve of a canvas built by the program is
    sorted; the lemmas below record it for the operations that are not
    point edits. *)

Lemma undo_sorted (s : PlotCanvas) :
  sorted_by_x (points s) -> sorted_by_x (points (undo s)).
Proof.
  intro H. unfold undo. destruct (rev (history s)); [exact H|].
  rewrite points_update_plot. apply list_sort_by_x.
Qed.

Lemma reset_plot_sorted (s : PlotCanvas) : sorted_by_x (points (reset_plot s)).
Proof.
  unfold reset_plot. destruct (original_points s);
    rewrite points_update_plot; apply list_sort_by_x.
Qed.

Lemma load_points_sorted (pts : list Point) (s : PlotCanvas) :
  pts <> [] ->
  sorted_tuples (points (load_points pts s))
  /\ original_points (load_points pts s) = points (load_points pts s).
Proof.
  intro H. destruct pts as [|p l]; [congruence|]. split.
  - unfold load_points. rewrite points_update_plot. apply list_sort_sorted.
  - reflexivity.
Qed.

Lemma downsample_points_sorted (k : Z) (s : PlotCanvas) :
  sorted_by_x (points s) ->
  sorted_by_x (points (final_state (downsample_points k s))).
Proof.
  intro H. unfold downsample_points.
  destruct (original_points s); [exact H|].
  destruct (Z.of_nat _ <=? k)%Z; [exact H|].
  destruct (slice_step _ k) as [d|]; [|exact H].
  destruct (length d <? 2)%nat; [exact H|].
  simpl final_state. rewrite points_update_plot. apply list_sort_by_x.
Qed.

(** After a load the two attributes name one list: an edit of the curve
    is an edit of the original curve as well. *)
Remark loaded_original_follows_edits :
  original_points
    (add_point 5 5 (load_points [(0, 0); (10, 1)] initial_canvas))
  = [(0, 0); (5, 5); (10, 1)].
Proof. reflexivity. Qed.

(** ** The curves of reachable states are sorted *)

Lemma run_edits_sorted (es : list Edit) (s : PlotCanvas) :
  sorted_by_x (points s) ->
  Forall (fun s' => sorted_by_x (points s')) (run_edits es s).
Proof.
  revert s. induction es as [|e es IH]; simpl; intros s Hs.
  - constructor.
  - assert (Hs' := apply_edit_sorted e s Hs).
    constructor; [exact Hs' | apply IH; exact Hs'].
Qed.

Lemma initial_canvas_sorted : sorted_by_x (points initial_canvas).
Proof. apply list_sort_by_x. Qed.

Lemma sorted_tuples_singleton (p : Point) : sorted_tuples [p].
Proof. repeat constructor. Qed.

(** Every reachable canvas has its curve and its original curve in the
    order of the sort: each write of [self.points] is followed by the
    sort, and the original curve is only ever the empty list, the
    default point or a loaded list sorted in place. *)
Lemma reachable_sorted (s : PlotCanvas) :
  reachable s ->
  sorted_tuples (points s) /\ sorted_tuples (original_points s).
Proof.
  induction 1 as [ | e s _ IH | s _ IH | s _ IH | s _ IH | pts s _ IH
                   | pts s _ IH | k s _ IH | fit ppd s _ IH
                   | fit factor s _ IH | s _ IH | s _ IH ];
    try (destruct IH as [IHp IHo]).
  - split; apply sorted_tuples_singleton.
  - destruct s as [[l | p o] h ip sp sf];
      unfold points, original_points in *; simpl in *;
      destruct e as [x y | old new | q]; simpl;
      unfold add_point, move_point, delete_point, points; simpl;
      try destruct (point_in _ _); simpl;
      split; try apply list_sort_sorted; try assumption.
  - unfold undo. destruct (rev (history s)) as [|top rest];
      [split; assumption|].
    split; [rewrite points_update_plot; apply list_sort_sorted | exact IHo].
  - unfold reset_plot. destruct (original_points s) as [|p l] eqn:E;
      (split; [rewrite points_update_plot; apply list_sort_sorted|]);
      unfold original_points in *; simpl; rewrite ?E; assumption.
  - split; [apply sorted_tuples_singleton | constructor].
  - destruct pts as [|p l]; [split; assumption|].
    split; apply list_sort_sorted.
  - split; apply list_sort_sorted.
  - assert (Hkeep : sorted_tuples (points s)
                    /\ sorted_tuples (original_points s))
      by (split; assumption).
    unfold downsample_points.
    destruct (original_points s) as [|p l] eqn:E;
      [simpl final_state; rewrite E; exact Hkeep|].
    destruct (Z.of_nat _ <=? k)%Z;
      [simpl final_state; rewrite E; exact Hkeep|].
    destruct (slice_step _ k) as [d|];
      [|simpl final_state; rewrite E; exact Hkeep].
    destruct (length d <? 2)%nat;
      [simpl final_state; rewrite E; exact Hkeep|].
    simpl final_state.
    split; [rewrite points_update_plot; apply list_sort_sorted|].
    change (original_points
              (update_plot (with_store (rebind_points d (store s)) s)))
      with (original_points s).
    rewrite E. apply Hkeep.
  - unfold perform_interpolation, interpolate_points.
    destruct (length (points s) <? 4)%nat; [split; assumption|].
    destruct (interp_source s) as [src|]; [|split; assumption].
    destruct (spline_function fit src s); split; assumption.
  - unfold apply_smoothing.
    change (points (mkCanvas (store s) (history s) (interpolated_points s)
                             (smoothing_spline s) (Some factor)))
      with (points s).
    destruct (1 <? length (points s))%nat.
    + destruct (fit _ _ factor); [|split; assumption].
      destruct s as [[l | p o] h ip sp sf];
        unfold points, original_points in *; simpl in *;
        split; try apply list_sort_sorted; assumption.
    + destruct s as [[l | p o] h ip sp sf];
        unfold points, original_points in *; simpl in *;
        split; try apply list_sort_sorted; assumption.
  - destruct s as [[l | p o] h ip sp sf];
      unfold points, original_points in *; simpl in *;
      split; try apply list_sort_sorted; assumption.
  - destruct s as [[l | p o] h ip sp sf];
      unfold points, original_points in *; simpl in *;
      split; try apply list_sort_sorted; assumption.
Qed.

(** C1: for every sequence of add_point, move_point and delete_point
    operations applied to any canvas the program can be in, the Curve
    is sorted ascending by x when each call returns. *)
Theorem C1_sort_invariant (es : list Edit) (s : PlotCanvas) :
  reachable s ->
  Forall (fun s' => sorted_by_x (points s')) (run_edits es s).
Proof.
  intro H. apply run_edits_sorted.
  apply sorted_tuples_by_x. apply (reachable_sorted s H).
Qed.

Lemma C1_sort_invariant_witness :
  Forall (fun s' => sorted_by_x (points s'))
         (run_edits [Add 5 1; Add 2 3; Move (5, 1) (1, 1); Delete (7, 7);
                     Delete (2, 3)]
                    (undo (load_points [(3, 1); (1, 2)] initial_canvas))).
Proof.
  apply (C1_sort_invariant _ (undo (load_points [(3, 1); (1, 2)] initial_canvas))).
  apply reach_undo, reach_load_csv, reach_initial.
Defined.

(** C2, as stated, fails: on the initial curve [(0,0)], moving the
    absent point (1,1) to (2,2) leaves the curve [(0,0)], whereas adding
    (2,2) gives [(0,0); (2,2)]. *)
Lemma C2_move_absent_counterexample :
  point_in (1, 1) (points initial_canvas) = false
  /\ points (move_point (1, 1) (2, 2) initial_canvas) = [(0, 0)]
  /\ points (add_point 2 2 initial_canvas) = [(0, 0); (2, 2)].
Proof. repeat split. Qed.

(** C2 (amended): if old is not a member of the Curve, move_point(old,
    new) leaves the Curve (and the original curve) as it was and only
    pushes the history snapshot; new is not added. *)
Theorem C2_move_absent (old_point new_point : Point) (s : PlotCanvas) :
  point_in old_point (points s) = false ->
  points (move_point old_point new_point s) = points s
  /\ original_points (move_point old_point new_point s) = original_points s
  /\ history (move_point old_point new_point s) = history s ++ [points s].
Proof.
  intro H. unfold move_point. rewrite points_record_history, H.
  repeat split.
Qed.

Lemma C2_move_absent_witness :
  point_in (1, 1) (points initial_canvas) = false
  /\ points (move_point (1, 1) (2, 2) initial_canvas) = points initial_canvas.
Proof.
  split; [reflexivity|].
  apply (C2_move_absent (1, 1) (2, 2) initial_canvas). reflexivity.
Defined.

(** ** History *)

Lemma history_update_plot (s : PlotCanvas) :
  history (update_plot s) = history s.
Proof. reflexivity. Qed.

Lemma add_point_history (x y : Q) (s : PlotCanvas) :
  history (add_point x y s) = history s ++ [points s].
Proof. reflexivity. Qed.

Lemma delete_point_history (p : Point) (s : PlotCanvas) :
  history (delete_point p s) = history s ++ [points s].
Proof.
  unfold delete_point. destruct (point_in p (points (record_history s)));
    reflexivity.
Qed.

Lemma move_point_history (o n : Point) (s : PlotCanvas) :
  history (move_point o n s) = history s ++ [points s].
Proof.
  unfold move_point. destruct (point_in o (points (record_history s)));
    reflexivity.
Qed.

Lemma downsample_points_history (k : Z) (s : PlotCanvas) :
  history (final_state (downsample_points k s)) = history s.
Proof.
  unfold downsample_points.
  destruct (original_points s); [reflexivity|].
  destruct (Z.of_nat _ <=? k)%Z; [reflexivity|].
  destruct (slice_step _ k) as [d|]; [|reflexivity].
  destruct (length d <? 2)%nat; reflexivity.
Qed.

(** C6, as stated, fails for downsampling: on a five-point curve with an
    empty history, [downsample_points 2] replaces the curve by three
    points and the history is still empty. *)
Lemma C6_downsample_counterexample :
  points line_canvas = [(0, 0); (1, 1); (2, 2); (3, 3); (4, 4)]
  /\ points (final_state (downsample_points 2 line_canvas))
     = [(0, 0); (2, 2); (4, 4)]
  /\ history (final_state (downsample_points 2 line_canvas)) = [].
Proof. repeat split. Qed.

(** C6 (amended): add_point, delete_point and move_point push a full
    snapshot of the pre-mutation Curve onto the history before mutating,
    so that right after the call the top of the history is the Curve as
    it was just before the call; the downsample operation replaces the
    Curve without touching the history. *)
Theorem C6_history_snapshot (e : Edit) (k : Z) (s : PlotCanvas) :
  history (apply_edit e s) = history s ++ [points s]
  /\ last (history (apply_edit e s)) [] = points s
  /\ history (final_state (downsample_points k s)) = history s.
Proof.
  assert (H : history (apply_edit e s) = history s ++ [points s]).
  { destruct e as [x y | o n | p].
    - exact (add_point_history x y s).
    - exact (move_point_history o n s).
    - exact (delete_point_history p s). }
  repeat split.
  - exact H.
  - rewrite H. apply last_last.
  - apply downsample_points_history.
Qed.

(** ** Downsampling *)

Lemma take_every_length (k : nat) (l : list Point) (i : nat) :
  (1 <= k)%nat ->
  length (take_every k i l) = ceil_div (length l - i) k.
Proof.
  intro Hk. revert i. induction l as [|p l IH]; intro i; simpl.
  - unfold ceil_div. simpl. symmetry. apply Nat.div_small. lia.
  - destruct i as [|i]; simpl.
    + rewrite IH. unfold ceil_div.
      destruct (Nat.le_gt_cases (k - 1) (length l)) as [Hle | Hgt].
      * replace (length l - (k - 1) + k - 1)%nat with (length l) by lia.
        replace (S (length l) + k - 1)%nat with (length l + 1 * k)%nat by lia.
        rewrite Nat.div_add by lia. lia.
      * replace (length l - (k - 1) + k - 1)%nat with (k - 1)%nat by lia.
        replace (S (length l) + k - 1)%nat with (length l + 1 * k)%nat by lia.
        rewrite Nat.div_add by lia.
        rewrite !Nat.div_small by lia. reflexivity.
    + apply IH.
Qed.

Lemma take_every_Forall (P : Point -> Prop) (k : nat) (l : list Point) (i : nat) :
  Forall P l -> Forall P (take_every k i l).
Proof.
  intro H. revert i. induction H as [|p l Hp Hl IH]; intro i; simpl.
  - constructor.
  - destruct i; [constructor; [exact Hp | apply IH] | apply IH].
Qed.

Lemma take_every_sorted (k i : nat) (l : list Point) :
  sorted_tuples l -> sorted_tuples (take_every k i l).
Proof.
  unfold sorted_tuples. intro H.
  apply StronglySorted_Sorted.
  apply Sorted_StronglySorted in H;
    [| intros a b c; apply tuple_le_trans].
  revert i. induction H as [|p l Hs IH Hall]; intro i; simpl.
  - constructor.
  - destruct i; [|apply IH].
    constructor; [apply IH | apply take_every_Forall; exact Hall].
Qed.

Lemma ceil_div_ge_2 (n k : nat) : (1 <= k < n)%nat -> (2 <= ceil_div n k)%nat.
Proof.
  intro H. unfold ceil_div. apply Nat.div_le_lower_bound; lia.
Qed.

Lemma slice_step_pos (l : list Point) (k : Z) :
  (1 <= k)%Z -> slice_step l k = Some (take_every (Z.to_nat k) 0 l).
Proof.
  intro Hk. unfold slice_step.
  destruct (Z.eqb_spec k 0); [lia|].
  destruct (Z.ltb_spec 0 k); [reflexivity | lia].
Qed.

Lemma downsample_points_ok (k : Z) (s : PlotCanvas) :
  (1 <= k)%Z -> (k < Z.of_nat (length (original_points s)))%Z ->
  downsample_points k s =
  Done (update_plot
          (with_store
             (rebind_points (take_every (Z.to_nat k) 0 (original_points s))
                            (store s)) s)).
Proof.
  intros Hk Hlt. unfold downsample_points.
  destruct (original_points s) as [|p l] eqn:E; [simpl in Hlt; lia|].
  destruct (Z.leb_spec (Z.of_nat (length (p :: l))) k); [lia|].
  rewrite slice_step_pos by exact Hk.
  assert (Hlen : (2 <= length (take_every (Z.to_nat k) 0 (p :: l)))%nat).
  { rewrite take_every_length by lia. rewrite Nat.sub_0_r.
    apply ceil_div_ge_2. lia. }
  destruct (Nat.ltb_spec (length (take_every (Z.to_nat k) 0 (p :: l))) 2);
    [lia | reflexivity].
Qed.

(** On any canvas: the failure by the stride, and on success the
    re-sorted strided subsequence, which is the subsequence itself when
    the original curve is in the order of the sort. *)
Lemma downsample_points_spec (k : Z) (s : PlotCanvas) :
  original_points s <> [] -> (1 <= k)%Z ->
  ((Z.of_nat (length (original_points s)) <= k)%Z ->
   downsample_points k s = Failed StrideTooLarge s)
  /\ ((k < Z.of_nat (length (original_points s)))%Z ->
      exists s',
        downsample_points k s = Done s'
        /\ points s' = list_sort (take_every (Z.to_nat k) 0 (original_points s))
        /\ length (points s')
           = ceil_div (length (original_points s)) (Z.to_nat k)
        /\ original_points s' = original_points s
        /\ (sorted_tuples (original_points s) ->
            points s' = take_every (Z.to_nat k) 0 (original_points s)
            /\ nth_error (points s') 0 = nth_error (original_points s) 0)).
Proof.
  intros Hne Hk. split.
  - intro Hge. unfold downsample_points.
    destruct (original_points s) as [|p l]; [congruence|].
    destruct (Z.leb_spec (Z.of_nat (length (p :: l))) k); [reflexivity | lia].
  - intro Hlt. eexists. split; [apply downsample_points_ok; assumption|].
    rewrite points_update_plot.
    assert (Hp : forall l, points (with_store (rebind_points l (store s)) s) = l)
      by reflexivity.
    rewrite Hp. split; [reflexivity|]. split; [|split; [reflexivity|]].
    + rewrite list_sort_length, take_every_length by lia.
      rewrite Nat.sub_0_r. reflexivity.
    + intro Hs.
      rewrite list_sort_id by (apply take_every_sorted; exact Hs).
      split; [reflexivity|].
      destruct (original_points s); reflexivity.
Qed.

(** C5: for every canvas the program can be in with a non-empty
    OriginalCurve and every stride >= 1, downsample(stride) fails
    exactly when stride >= len(OriginalCurve); on success it replaces
    Curve with the subsequence of every stride-th point of
    OriginalCurve starting at index 0, which has exactly
    ceil(len(OriginalCurve)/stride) points whose first element equals
    OriginalCurve[0], and OriginalCurve itself is left unchanged. *)
Theorem C5_downsample (k : Z) (s : PlotCanvas) :
  reachable s -> original_points s <> [] -> (1 <= k)%Z ->
  ((Z.of_nat (length (original_points s)) <= k)%Z ->
   downsample_points k s = Failed StrideTooLarge s)
  /\ ((k < Z.of_nat (length (original_points s)))%Z ->
      exists s',
        downsample_points k s = Done s'
        /\ points s' = take_every (Z.to_nat k) 0 (original_points s)
        /\ length (points s')
           = ceil_div (length (original_points s)) (Z.to_nat k)
        /\ nth_error (points s') 0 = nth_error (original_points s) 0
        /\ original_points s' = original_points s).
Proof.
  intros Hr Hne Hk.
  destruct (downsample_points_spec k s Hne Hk) as [Hfail Hok].
  split; [exact Hfail|].
  intro Hlt. destruct (Hok Hlt) as [s' [H1 [_ [H3 [H4 H5]]]]].
  destruct (H5 (proj2 (reachable_sorted s Hr))) as [H6 H7].
  exists s'. repeat split; assumption.
Qed.

Lemma line_canvas_sorted : sorted_tuples (original_points line_canvas).
Proof.
  destruct (load_points_sorted [(0, 0); (1, 1); (2, 2); (3, 3); (4, 4)]
                               initial_canvas) as [Hs He]; [discriminate|].
  unfold line_canvas. rewrite He. exact Hs.
Qed.

Lemma line_canvas_reachable : reachable line_canvas.
Proof. apply reach_load_csv, reach_initial. Qed.

Lemma C5_downsample_witness :
  exists s',
    downsample_points 2 line_canvas = Done s'
    /\ points s' = take_every 2 0 (original_points line_canvas)
    /\ length (points s') = 3%nat
    /\ nth_error (points s') 0 = nth_error (original_points line_canvas) 0
    /\ original_points s' = original_points line_canvas.
Proof.
  refine (proj2 (C5_downsample 2 line_canvas line_canvas_reachable _ _) _).
  - discriminate.
  - lia.
  - simpl. lia.
Defined.

(** C10: under 1 <= stride < len(OriginalCurve) the strided
    subsequence OriginalCurve[::stride] has at least 2 points, so the
    "insufficient result" branch of downsample is not reached. *)
Theorem C10_insufficient_result_unreachable (k : Z) (s : PlotCanvas) :
  (1 <= k)%Z -> (k < Z.of_nat (length (original_points s)))%Z ->
  exists l,
    slice_step (original_points s) k = Some l
    /\ (2 <= length l)%nat
    /\ forall s', downsample_points k s <> Failed InsufficientResult s'.
Proof.
  intros Hk Hlt. exists (take_every (Z.to_nat k) 0 (original_points s)).
  split; [apply slice_step_pos; exact Hk|]. split.
  - rewrite take_every_length by lia. rewrite Nat.sub_0_r.
    apply ceil_div_ge_2. lia.
  - intro s'. rewrite downsample_points_ok by assumption. discriminate.
Qed.

Lemma C10_insufficient_result_unreachable_witness :
  exists l,
    slice_step (original_points line_canvas) 4 = Some l
    /\ (2 <= length l)%nat
    /\ forall s', downsample_points 4 line_canvas <> Failed InsufficientResult s'.
Proof.
  apply (C10_insufficient_result_unreachable 4 line_canvas).
  - lia.
  - simpl. lia.
Defined.

(** ** Interpolation *)

Lemma linspace_length (a b : Q) (n : nat) : length (linspace a b n) = n.
Proof.
  destruct n as [|[|m]]; [reflexivity | reflexivity |].
  unfold linspace. rewrite length_app, length_map, length_seq. simpl. lia.
Qed.

Lemma linspace_last (a b : Q) (n : nat) :
  (2 <= n)%nat -> last (linspace a b n) 0 = b.
Proof.
  intro H. destruct n as [|[|m]]; [lia | lia |].
  unfold linspace. apply last_last.
Qed.

Lemma linspace_nth (a b : Q) (n i : nat) :
  (2 <= n)%nat -> (i < n - 1)%nat ->
  nth i (linspace a b n) 0
  = a + inject_Z (Z.of_nat i) * ((b - a) / inject_Z (Z.of_nat (n - 1))).
Proof.
  intros Hn Hi. destruct n as [|[|m]]; [lia | lia |].
  unfold linspace. replace (S (S m) - 1)%nat with (S m) in * by lia.
  set (g := fun i0 : nat =>
              a + inject_Z (Z.of_nat i0) * ((b - a) / inject_Z (Z.of_nat (S m)))).
  rewrite app_nth1 by (rewrite length_map, length_seq; exact Hi).
  rewrite (nth_indep _ 0 (g O)) by (rewrite length_map, length_seq; exact Hi).
  rewrite (map_nth g), seq_nth by exact Hi. reflexivity.
Qed.

Lemma total_points_ge_2 (pts : list Point) (ppd : Z) :
  (2 <= total_points pts ppd)%Z.
Proof. unfold total_points. lia. Qed.

Lemma py_min_increasing (x : Q) (r : list Q) :
  strictly_increasing (x :: r) -> py_min (x :: r) = x.
Proof.
  intro H. apply Sorted_StronglySorted in H;
    [| intros a b c; apply Qlt_trans].
  inversion H as [|? ? _ Hall]; subst. clear H. simpl.
  induction Hall as [|a r Ha Hr IH]; simpl; [reflexivity|].
  replace (Qlt_bool a x) with false; [exact IH|].
  symmetry. apply Qlt_bool_false, Qlt_le_weak. exact Ha.
Qed.

Lemma py_max_increasing (x : Q) (r : list Q) :
  strictly_increasing (x :: r) -> py_max (x :: r) = last (x :: r) 0.
Proof.
  simpl py_max. revert x. induction r as [|a r IH]; intros x H.
  - reflexivity.
  - inversion H as [|? ? Hs Hhd]; subst. inversion Hhd as [|? ? Hxa]; subst.
    simpl fold_left. apply Qlt_bool_true in Hxa. rewrite Hxa.
    rewrite IH by exact Hs. destruct r; reflexivity.
Qed.

Lemma last_map_px (l : list Point) (d : Point) :
  last (map px l) (px d) = px (last l d).
Proof.
  induction l as [|p l IH]; [reflexivity|].
  destruct l; [reflexivity|]. exact IH.
Qed.

Lemma sample_last (f : Q -> Q) (xs : list Q) (d : Q) :
  last (sample f xs) (d, f d) = (last xs d, f (last xs d)).
Proof.
  induction xs as [|x xs IH]; [reflexivity|].
  destruct xs; [reflexivity|]. exact IH.
Qed.

Section FittingFacts.

Variable UnivariateSpline : list Q -> list Q -> Q -> option (Q -> Q).

Lemma perform_interpolation_enough (ppd : Z) (s : PlotCanvas) :
  (4 <= length (points s))%nat ->
  interp_source s = Some (points s)
  /\ perform_interpolation UnivariateSpline ppd s
     = interpolate_points UnivariateSpline ppd s.
Proof.
  intro H. unfold perform_interpolation, interp_source.
  destruct (Nat.ltb_spec (length (points s)) 4); [lia|].
  destruct (points s); [simpl in H; lia | split; reflexivity].
Qed.

Lemma interpolate_points_not_insufficient (ppd : Z) (s s' : PlotCanvas) :
  interpolate_points UnivariateSpline ppd s <> Failed InsufficientPoints s'.
Proof.
  unfold interpolate_points.
  destruct (interp_source s) as [pts|]; [|discriminate].
  destruct (spline_function UnivariateSpline pts s); discriminate.
Qed.

(** C3 (amended): interpolate reads the Curve if it is non-empty and
    otherwise OriginalCurve, whatever InterpolatedCurve holds; it fails
    with "insufficient points" exactly when the Curve has fewer than 4
    points, so whenever it goes on its input is the Curve. *)
Theorem C3_interpolation_input (ppd : Z) (s : PlotCanvas) :
  (points s <> [] -> interp_source s = Some (points s))
  /\ (points s = [] -> original_points s <> [] ->
      interp_source s = Some (original_points s))
  /\ (forall ip, interp_source (with_interpolated ip s) = interp_source s)
  /\ ((exists s', perform_interpolation UnivariateSpline ppd s
                  = Failed InsufficientPoints s')
      <-> (length (points s) < 4)%nat)
  /\ ((4 <= length (points s))%nat -> interp_source s = Some (points s)).
Proof.
  split; [|split; [|split; [|split]]].
  - unfold interp_source. destruct (points s); [congruence | reflexivity].
  - unfold interp_source. intros -> Ho.
    destruct (original_points s); [congruence | reflexivity].
  - reflexivity.
  - split.
    + intros [s' H].
      destruct (Nat.lt_ge_cases (length (points s)) 4) as [Hlt | Hge];
        [exact Hlt|].
      destruct (perform_interpolation_enough ppd s Hge) as [_ Heq].
      rewrite Heq in H.
      exfalso. exact (interpolate_points_not_insufficient _ _ _ H).
    + intro Hlt. exists s. unfold perform_interpolation.
      destruct (Nat.ltb_spec (length (points s)) 4); [reflexivity | lia].
  - intro H. apply (perform_interpolation_enough ppd s H).
Qed.

Lemma sample_hd (f : Q -> Q) (xs : list Q) (d : Q) :
  hd (d, f d) (sample f xs) = (nth 0 xs d, f (nth 0 xs d)).
Proof. destruct xs; reflexivity. Qed.

Lemma sample_on_graph (f : Q -> Q) (xs : list Q) :
  Forall (fun q => py q = f (px q)) (sample f xs).
Proof.
  apply Forall_forall. intros q Hq. unfold sample in Hq.
  apply in_map_iff in Hq. destruct Hq as [x [<- _]]. reflexivity.
Qed.

Lemma last_In (l : list Point) (d : Point) : l <> [] -> In (last l d) l.
Proof.
  induction l as [|p l IH]; [congruence|]. intros _.
  destruct l as [|q l]; [left; reflexivity|].
  right. apply IH. discriminate.
Qed.

(** What interpolate stores once the fitted function is known. *)
Lemma perform_interpolation_samples (ppd : Z) (s : PlotCanvas) (f : Q -> Q) :
  (4 <= length (points s))%nat ->
  spline_function UnivariateSpline (points s) s = Some f ->
  perform_interpolation UnivariateSpline ppd s
  = Done (with_interpolated
            (Some (sample f (linspace (py_min (map px (points s)))
                                      (py_max (map px (points s)))
                                      (Z.to_nat (total_points (points s) ppd)))))
            s).
Proof.
  intros Hlen Hf.
  destruct (perform_interpolation_enough ppd s Hlen) as [Hsrc Heq].
  rewrite Heq. unfold interpolate_points. rewrite Hsrc, Hf. reflexivity.
Qed.

(** C4 (amended): for every Curve of exactly 3 points interpolate
    fails with "insufficient points" (interpolation has no linear
    fallback).  For every Curve of at least 4 points with strictly
    increasing x and no stored smoothing spline, interpolate fits a
    fresh cubic spline to the Curve with smoothing 0 and stores its
    samples; when that fit is exact on its data (it passes through
    every point of the Curve), every stored sample lies on the fitted
    function, a sample taken at the x of an original point has that
    point's y, and the first and the last sample are the first and the
    last original point.  With a stored smoothing spline the samples are
    taken from that spline instead, whatever the Curve holds now. *)
Theorem C4_interpolation_paths (ppd : Z) (s : PlotCanvas) :
  (length (points s) = 3%nat ->
   perform_interpolation UnivariateSpline ppd s = Failed InsufficientPoints s)
  /\ (forall f,
       (4 <= length (points s))%nat ->
       strictly_increasing (map px (points s)) ->
       smoothing_spline s = None ->
       UnivariateSpline (map px (points s)) (map py (points s)) 0 = Some f ->
       (forall x x', x == x' -> f x == f x') ->
       (forall p, In p (points s) -> f (px p) == py p) ->
       exists out,
         perform_interpolation UnivariateSpline ppd s
         = Done (with_interpolated (Some out) s)
         /\ Forall (fun q => py q = f (px q)) out
         /\ Forall (fun q => forall p, In p (points s) ->
                             px q == px p -> py q == py p) out
         /\ px (hd (0, f 0) out) == px (hd (0, 0) (points s))
         /\ py (hd (0, f 0) out) == py (hd (0, 0) (points s))
         /\ px (last out (0, f 0)) = px (last (points s) (0, 0))
         /\ py (last out (0, f 0)) == py (last (points s) (0, 0)))
  /\ (forall f,
       (4 <= length (points s))%nat ->
       smoothing_spline s = Some f ->
       exists out,
         perform_interpolation UnivariateSpline ppd s
         = Done (with_interpolated (Some out) s)
         /\ Forall (fun q => py q = f (px q)) out
         /\ last out (0, f 0)
            = (py_max (map px (points s)), f (py_max (map px (points s))))).
Proof.
  assert (Hn : (2 <= Z.to_nat (total_points (points s) ppd))%nat)
    by (pose proof (total_points_ge_2 (points s) ppd); lia).
  split; [|split].
  - intro H. unfold perform_interpolation. rewrite H. reflexivity.
  - intros f Hlen Hinc Hnone Hfit Hproper Hexact.
    eexists. split.
    + apply perform_interpolation_samples; [exact Hlen|].
      unfold spline_function. rewrite Hnone. exact Hfit.
    + assert (Hgraph := sample_on_graph f
                (linspace (py_min (map px (points s)))
                          (py_max (map px (points s)))
                          (Z.to_nat (total_points (points s) ppd)))).
      destruct (points s) as [|p l] eqn:E; [simpl in Hlen; lia|].
      assert (Hhd : nth 0 (linspace (py_min (map px (p :: l)))
                                    (py_max (map px (p :: l)))
                                    (Z.to_nat (total_points (p :: l) ppd))) 0
                    == px p).
      { rewrite linspace_nth by lia.
        simpl map in *. rewrite py_min_increasing by exact Hinc.
        simpl. ring. }
      assert (Hlast : last (linspace (py_min (map px (p :: l)))
                                     (py_max (map px (p :: l)))
                                     (Z.to_nat (total_points (p :: l) ppd))) 0
                      = px (last (p :: l) (0, 0))).
      { rewrite linspace_last by exact Hn.
        simpl map in *. rewrite py_max_increasing by exact Hinc.
        exact (last_map_px (p :: l) (0, 0)). }
      split; [exact Hgraph|]. split; [|split; [|split; [|split]]].
      * apply Forall_forall. intros q Hq p0 Hp0 Hx.
        rewrite Forall_forall in Hgraph. rewrite (Hgraph q Hq).
        rewrite (Hproper _ _ Hx). apply Hexact. exact Hp0.
      * rewrite sample_hd. exact Hhd.
      * rewrite sample_hd. simpl hd. simpl py at 1.
        rewrite (Hproper _ _ Hhd). apply Hexact. left. reflexivity.
      * rewrite sample_last, Hlast. reflexivity.
      * rewrite sample_last, Hlast. simpl py at 1.
        apply Hexact. apply last_In. discriminate.
  - intros f Hlen Hsome.
    eexists. split; [|split].
    + apply perform_interpolation_samples; [exact Hlen|].
      unfold spline_function. rewrite Hsome. reflexivity.
    + apply sample_on_graph.
    + rewrite sample_last, linspace_last by exact Hn. reflexivity.
Qed.


End FittingFacts.

(** C3, as stated, fails: with a Curve of 3 points and a stored
    interpolation of 5 points, the specification's input would be the
    5 stored points (enough), whereas the program reads the Curve and
    fails with "insufficient points". *)
Lemma C3_shadowed_counterexample :
  spec_interp_source shadowed_canvas = interpolated_points shadowed_canvas
  /\ option_map (@length Point) (spec_interp_source shadowed_canvas)
     = Some 5%nat
  /\ interp_source shadowed_canvas = Some [(0, 0); (1, 1); (2, 0)]
  /\ (forall fit ppd,
        perform_interpolation fit ppd shadowed_canvas
        = Failed InsufficientPoints shadowed_canvas).
Proof. repeat split. Qed.

Lemma C3_interpolation_input_witness :
  interp_source scenario_canvas = Some (points scenario_canvas)
  /\ ~ (exists s', perform_interpolation polynomial_fit 10 scenario_canvas
                   = Failed InsufficientPoints s').
Proof.
  destruct (C3_interpolation_input polynomial_fit 10 scenario_canvas)
    as [H1 [_ [_ [H4 _]]]].
  split.
  - apply H1. discriminate.
  - intro H. apply H4 in H. simpl in H. lia.
Defined.

(** A spline stored by the smoothing dialog is the one interpolate
    samples after the Curve has been edited: on the scenario's curve,
    smoothing with factor 0 and then dragging the last point from
    (40, 0) to (40, 3) leaves an interpolation that ends on the stored
    spline's value at 40. *)
Lemma stale_spline_interpolation
      (fit : list Q -> list Q -> Q -> option (Q -> Q)) (f : Q -> Q) (ppd : Z) :
  fit (map px (points scenario_canvas)) (map py (points scenario_canvas)) 0
  = Some f ->
  let s := move_point (40, 0) (40, 3)
             (final_state (apply_smoothing fit 0 scenario_canvas)) in
  reachable s
  /\ points s = [(0, 0); (10, 5); (20, 0); (30, -5); (40, 3)]
  /\ smoothing_factor s = Some 0
  /\ exists out,
       perform_interpolation fit ppd s = Done (with_interpolated (Some out) s)
       /\ last out (0, f 0) = (40, f 40).
Proof.
  intros Hf s.
  assert (Hreach : reachable s).
  { exact (reach_edit (Move (40, 0) (40, 3)) _
             (reach_smoothing fit 0 _
                (reach_load_csv _ _ reach_initial))). }
  assert (Hs : apply_smoothing fit 0 scenario_canvas
               = Done (update_plot
                         (mkCanvas (store scenario_canvas)
                                   (history scenario_canvas)
                                   (interpolated_points scenario_canvas)
                                   (Some f) (Some 0)))).
  { unfold apply_smoothing.
    change (points (mkCanvas (store scenario_canvas) (history scenario_canvas)
                             (interpolated_points scenario_canvas)
                             (smoothing_spline scenario_canvas) (Some 0)))
      with (points scenario_canvas).
    rewrite Hf. reflexivity. }
  assert (Hpts : points s = [(0, 0); (10, 5); (20, 0); (30, -5); (40, 3)]).
  { unfold s. rewrite Hs. reflexivity. }
  assert (Hspl : smoothing_spline s = Some f).
  { unfold s. rewrite Hs. reflexivity. }
  split; [exact Hreach|]. split; [exact Hpts|]. split.
  { unfold s. rewrite Hs. reflexivity. }
  eexists. split.
  - apply perform_interpolation_samples; [rewrite Hpts; simpl; lia|].
    unfold spline_function. rewrite Hspl. reflexivity.
  - rewrite sample_last, linspace_last
      by (pose proof (total_points_ge_2 (points s) ppd); lia).
    rewrite Hpts. reflexivity.
Qed.

(** C4, as stated, fails in both halves.  On a Curve of exactly 3
    points with strictly increasing x, interpolate does not produce a
    linear interpolation; it fails with "insufficient points", whatever
    the fit.  And on a Curve of 5 points with strictly increasing x and
    smoothing factor 0, the output need not pass through the original
    points: after the scenario's curve has been smoothed with factor 0
    by a fit that is exact at x = 40, and its last point dragged from
    (40, 0) to (40, 3), the interpolation ends at height 0, not 3. *)
Lemma C4_fallback_and_stale_spline_counterexample :
  (reachable three_point_canvas
   /\ length (points three_point_canvas) = 3%nat
   /\ strictly_increasing (map px (points three_point_canvas))
   /\ (forall fit ppd,
         perform_interpolation fit ppd three_point_canvas
         = Failed InsufficientPoints three_point_canvas))
  /\ (forall fit f ppd,
        fit (map px (points scenario_canvas))
            (map py (points scenario_canvas)) 0 = Some f ->
        f 40 == 0 ->
        let s := move_point (40, 0) (40, 3)
                   (final_state (apply_smoothing fit 0 scenario_canvas)) in
        reachable s
        /\ (4 <= length (points s))%nat
        /\ strictly_increasing (map px (points s))
        /\ smoothing_factor s = Some 0
        /\ last (points s) (0, 0) = (40, 3)
        /\ exists out,
             perform_interpolation fit ppd s
             = Done (with_interpolated (Some out) s)
             /\ px (last out (0, f 0)) = 40
             /\ py (last out (0, f 0)) == 0
             /\ ~ py (last out (0, f 0)) == py (last (points s) (0, 0))).
Proof.
  split.
  - split.
    { exact (reach_edit (Add 2 0) _ (reach_edit (Add 1 1) _ reach_initial)). }
    split; [reflexivity|]. split; [|reflexivity].
    repeat constructor.
  - intros fit f ppd Hf H40 s.
    destruct (stale_spline_interpolation fit f ppd Hf)
      as [Hreach [Hpts [Hfac [out [Hout Hlast]]]]].
    fold s in Hreach, Hpts, Hfac, Hout.
    split; [exact Hreach|].
    split; [rewrite Hpts; simpl; lia|].
    split; [rewrite Hpts; repeat constructor|].
    split; [exact Hfac|].
    split; [rewrite Hpts; reflexivity|].
    exists out. split; [exact Hout|].
    rewrite Hlast, Hpts. simpl.
    split; [reflexivity|]. split; [exact H40|].
    rewrite H40. discriminate.
Qed.

Lemma scenario_increasing :
  strictly_increasing (map px (points scenario_canvas)).
Proof. repeat constructor. Qed.

Lemma lagrange_basis_compat (xi : Q) (others : list Q) (x x' : Q) :
  x == x' -> lagrange_basis xi others x == lagrange_basis xi others x'.
Proof.
  intro H. unfold lagrange_basis.
  induction others as [|xj others IH]; [reflexivity|].
  simpl. rewrite IH, H. reflexivity.
Qed.

Lemma lagrange_aux_compat (before xs ys : list Q) (x x' : Q) :
  x == x' -> lagrange_aux before xs ys x == lagrange_aux before xs ys x'.
Proof.
  intro H. revert before ys.
  induction xs as [|xi xs IH]; intros before ys; [reflexivity|].
  destruct ys as [|yi ys]; [reflexivity|].
  simpl. rewrite (IH (before ++ [xi]) ys).
  rewrite (lagrange_basis_compat xi (before ++ xs) x x' H). reflexivity.
Qed.

Lemma scenario_fit_compat (x x' : Q) :
  x == x' -> scenario_fit x == scenario_fit x'.
Proof.
  intro H. unfold scenario_fit. rewrite !Qred_correct.
  apply lagrange_aux_compat. exact H.
Qed.

Lemma scenario_fit_exact (p : Point) :
  In p (points scenario_canvas) -> scenario_fit (px p) == py p.
Proof.
  intro H. simpl in H.
  destruct H as [<- | [<- | [<- | [<- | [<- | []]]]]]; reflexivity.
Qed.

Lemma C4_interpolation_paths_witness :
  exists out,
    perform_interpolation polynomial_fit 10 scenario_canvas
    = Done (with_interpolated (Some out) scenario_canvas)
    /\ Forall (fun q => py q = scenario_fit (px q)) out
    /\ px (hd (0, scenario_fit 0) out) == 0
    /\ py (hd (0, scenario_fit 0) out) == 0
    /\ px (last out (0, scenario_fit 0)) = 40
    /\ py (last out (0, scenario_fit 0)) == 0.
Proof.
  destruct (proj1 (proj2 (C4_interpolation_paths polynomial_fit 10
                            scenario_canvas))
                  scenario_fit)
    as [out [H1 [H2 [_ [H4 [H5 [H6 H7]]]]]]].
  - simpl. lia.
  - exact scenario_increasing.
  - reflexivity.
  - reflexivity.
  - exact scenario_fit_compat.
  - exact scenario_fit_exact.
  - exists out. split; [exact H1|]. split; [exact H2|].
    split; [exact H4|]. split; [exact H5|]. split; [exact H6|]. exact H7.
Defined.




(** ** The oscillator *)

Section OscillatorFacts.

Local Open Scope R_scope.

Lemma Q2R_zero (q : Q) : (q == 0)%Q -> Q2R q = 0.
Proof. intro H. rewrite (Qeq_eqR _ _ H). apply RMicromega.Q2R_0. Qed.

Lemma tone_samples_zero (sr : Z) (x_dense : list Q) (t : Tone) :
  (snd t == 0)%Q -> tone_samples sr x_dense t = zeros x_dense.
Proof.
  intro H. unfold tone_samples, zeros. apply map_ext. intro x.
  rewrite (Q2R_zero _ H). apply Rmult_0_l.
Qed.

Lemma vec_add_zeros (x_dense : list Q) :
  vec_add (zeros x_dense) (zeros x_dense) = zeros x_dense.
Proof.
  unfold vec_add, zeros. induction x_dense as [|x l IH]; simpl.
  - reflexivity.
  - rewrite IH, Rplus_0_l. reflexivity.
Qed.

Lemma composite_zero_amplitudes (tones : list Tone) (sr : Z) (x_dense : list Q) :
  Forall (fun t => (snd t == 0)%Q) tones ->
  composite_oscillator tones sr x_dense = zeros x_dense.
Proof.
  unfold composite_oscillator.
  induction 1 as [|t l Ht Hl IH]; simpl.
  - reflexivity.
  - rewrite (tone_samples_zero _ _ _ Ht), vec_add_zeros. exact IH.
Qed.

Lemma fold_Rmax_zeros (l : list Q) :
  fold_left Rmax (map Rabs (zeros l)) 0 = 0.
Proof.
  induction l as [|x l IH]; simpl; [reflexivity|].
  rewrite Rabs_R0, Rmax_left by lra. exact IH.
Qed.

Lemma peak_abs_zeros (x_dense : list Q) :
  x_dense <> [] -> peak_abs (zeros x_dense) = Some 0.
Proof.
  destruct x_dense as [|x l]; [congruence|]. intros _.
  unfold peak_abs. simpl. rewrite Rabs_R0. f_equal. apply fold_Rmax_zeros.
Qed.

Lemma Rabs_scale (a m : R) : 0 < m -> Rabs (a / m) = / m * Rabs a.
Proof.
  intro Hm. unfold Rdiv. rewrite Rabs_mult, Rabs_inv.
  rewrite (Rabs_pos_eq m) by lra. apply Rmult_comm.
Qed.

Lemma fold_Rmax_scale (m : R) (l : list R) (a : R) :
  0 < m ->
  fold_left Rmax (map (fun b => / m * b) l) (/ m * a)
  = / m * fold_left Rmax l a.
Proof.
  intro Hm. revert a. induction l as [|b l IH]; intro a; simpl.
  - reflexivity.
  - rewrite RmaxRmult by (left; apply Rinv_0_lt_compat; exact Hm).
    apply IH.
Qed.

Lemma peak_abs_scale (m p : R) (v : list R) :
  0 < m -> peak_abs v = Some p ->
  peak_abs (map (fun a => a / m) v) = Some (/ m * p).
Proof.
  intros Hm. unfold peak_abs. rewrite map_map.
  rewrite (map_ext (fun a => Rabs (a / m)) (fun a => / m * Rabs a))
    by (intro a; apply Rabs_scale; exact Hm).
  rewrite <- (map_map Rabs (fun b => / m * b)).
  destruct (map Rabs v) as [|a l]; simpl; [discriminate|].
  intro H. injection H as <-. f_equal. apply fold_Rmax_scale. exact Hm.
Qed.

(** C8 (amended): for every tone list and sample grid, the division
    is performed only by a peak that is strictly positive, and when the
    composite's peak absolute value is positive the normalized
    composite has peak absolute value exactly 1; if the tone list is
    empty or every amplitude is zero (and the grid is not empty) the
    composite is all zeros and the division is skipped.  A non-zero
    amplitude alone does not make the peak non-zero. *)
Theorem C8_normalization (tones : list Tone) (sr : Z) (x_dense : list Q) :
  (forall m,
      peak_abs (composite_oscillator tones sr x_dense) = Some m -> 0 < m ->
      normalized_oscillator tones sr x_dense
      = Some (Divided (map (fun a => a / m)
                           (composite_oscillator tones sr x_dense)))
      /\ peak_abs (map (fun a => a / m) (composite_oscillator tones sr x_dense))
         = Some 1)
  /\ (forall v,
        normalized_oscillator tones sr x_dense = Some (Divided v) ->
        exists m,
          0 < m
          /\ peak_abs (composite_oscillator tones sr x_dense) = Some m
          /\ v = map (fun a => a / m) (composite_oscillator tones sr x_dense))
  /\ (x_dense <> [] ->
      Forall (fun t => (snd t == 0)%Q) tones ->
      composite_oscillator tones sr x_dense = zeros x_dense
      /\ normalized_oscillator tones sr x_dense
         = Some (Untouched (zeros x_dense))).
Proof.
  split; [|split].
  - intros m Hp Hm. split.
    + unfold normalized_oscillator, normalize. rewrite Hp.
      destruct (Rlt_dec 0 m); [reflexivity | contradiction].
    + rewrite (peak_abs_scale m m _ Hm Hp). f_equal.
      apply Rinv_l. lra.
  - intros v. unfold normalized_oscillator, normalize.
    destruct (peak_abs (composite_oscillator tones sr x_dense)) as [m|];
      [|discriminate].
    destruct (Rlt_dec 0 m) as [Hm|Hm]; [|discriminate].
    intro H. injection H as <-. exists m. repeat split. exact Hm.
  - intros Hne Hz.
    rewrite (composite_zero_amplitudes _ _ _ Hz) at 1. split; [reflexivity|].
    unfold normalized_oscillator, normalize.
    rewrite (composite_zero_amplitudes _ _ _ Hz), (peak_abs_zeros _ Hne).
    destruct (Rlt_dec 0 0) as [H|H]; [lra | reflexivity].
Qed.

Lemma composite_at_origin :
  composite_oscillator [(100%Z, 1%Q)] 1000 [0%Q] = [0].
Proof.
  unfold composite_oscillator, tone_samples, vec_add. simpl. f_equal.
  rewrite RMicromega.Q2R_0.
  replace (2 * PI * 100 * 0 / 1000) with 0 by (unfold Rdiv; ring).
  rewrite sin_0. ring.
Qed.

(** C8, as stated, fails: the curve [(0,0); (1,1)] at rate 1000 has the
    one-sample grid [0]; a single tone of amplitude 1 there has the
    sample sin 0 = 0, so the peak is 0, the division is skipped and the
    peak after normalization is 0, not 1. *)
Lemma C8_zero_peak_counterexample :
  vibration_grid [(0, 0); (1, 1)]%Q 1000 = [0%Q]
  /\ ~ (snd (100%Z, 1%Q) == 0)%Q
  /\ normalized_oscillator [(100%Z, 1%Q)] 1000 [0%Q] = Some (Untouched [0])
  /\ peak_abs [0] = Some 0.
Proof.
  split; [reflexivity|]. split; [discriminate|].
  assert (Hp : peak_abs [0] = Some 0)
    by (unfold peak_abs; simpl; rewrite Rabs_R0; reflexivity).
  split; [|exact Hp].
  unfold normalized_oscillator, normalize.
  rewrite composite_at_origin, Hp.
  destruct (Rlt_dec 0 0) as [H|H]; [lra | reflexivity].
Qed.

Lemma composite_quarter_turn :
  composite_oscillator [(1%Z, 1%Q)] 4 [1%Q] = [1].
Proof.
  unfold composite_oscillator, tone_samples, vec_add. simpl. f_equal.
  replace (Q2R 1) with 1 by (unfold Q2R; simpl; field).
  replace (2 * PI * 1 * 1 / 4) with (PI / 2) by field.
  rewrite sin_PI2. ring.
Qed.

Lemma C8_normalization_witness :
  peak_abs (composite_oscillator [(1%Z, 1%Q)] 4 [1%Q]) = Some 1
  /\ normalized_oscillator [(1%Z, 1%Q)] 4 [1%Q]
     = Some (Divided (map (fun a => a / 1)
                          (composite_oscillator [(1%Z, 1%Q)] 4 [1%Q])))
  /\ normalized_oscillator [(5%Z, 0%Q); (7%Z, 0%Q)] 1000 [0%Q; 1%Q]
     = Some (Untouched [0; 0]).
Proof.
  assert (Hp : peak_abs (composite_oscillator [(1%Z, 1%Q)] 4 [1%Q]) = Some 1).
  { rewrite composite_quarter_turn. unfold peak_abs. simpl.
    rewrite Rabs_R1. reflexivity. }
  destruct (C8_normalization [(1%Z, 1%Q)] 4 [1%Q]) as [H1 _].
  destruct (C8_normalization [(5%Z, 0%Q); (7%Z, 0%Q)] 1000 [0%Q; 1%Q])
    as [_ [_ H3]].
  split; [exact Hp|]. split.
  - apply (H1 1 Hp). lra.
  - apply H3; [discriminate | repeat constructor].
Defined.

End OscillatorFacts.

(** ** The spectrum *)

Lemma arange_length (lo : Z) (n : nat) : length (arange lo n) = n.
Proof. unfold arange. rewrite length_map, length_seq. reflexivity. Qed.

Lemma arange_nth (lo : Z) (n k : nat) :
  (k < n)%nat -> nth k (arange lo n) 0%Z = (lo + Z.of_nat k)%Z.
Proof.
  intro H. unfold arange.
  set (g := fun i : nat => (lo + Z.of_nat i)%Z).
  rewrite (nth_indep _ 0%Z (g O)) by (rewrite length_map, length_seq; exact H).
  rewrite (map_nth g), seq_nth by exact H. reflexivity.
Qed.

Lemma half_le_positive_part (n : nat) :
  (n / 2 <= Z.to_nat ((Z.of_nat n - 1) / 2 + 1))%nat.
Proof.
  assert (H : (Z.of_nat (n / 2) <= (Z.of_nat n - 1) / 2 + 1)%Z).
  { rewrite Nat2Z.inj_div. simpl Z.of_nat.
    pose proof (Z.div_mod (Z.of_nat n) 2 ltac:(lia)) as H1.
    pose proof (Z.mod_pos_bound (Z.of_nat n) 2 ltac:(lia)) as H2.
    pose proof (Z.div_mod (Z.of_nat n - 1) 2 ltac:(lia)) as H3.
    pose proof (Z.mod_pos_bound (Z.of_nat n - 1) 2 ltac:(lia)) as H4.
    lia. }
  lia.
Qed.

Lemma fftfreq_length (n : nat) (d : Q) :
  (n / 2 <= length (fftfreq n d))%nat.
Proof.
  unfold fftfreq. rewrite length_map, length_app, !arange_length.
  pose proof (half_le_positive_part n). lia.
Qed.

Lemma fftfreq_nth (n : nat) (d : Q) (k : nat) :
  (k < n / 2)%nat ->
  nth k (fftfreq n d) 0
  = inject_Z (Z.of_nat k) * (1 / (inject_Z (Z.of_nat n) * d)).
Proof.
  intro Hk. unfold fftfreq.
  set (val := 1 / (inject_Z (Z.of_nat n) * d)).
  set (g := fun z : Z => inject_Z z * val).
  pose proof (half_le_positive_part n) as Hp.
  assert (Hlen : (k < length (arange 0 (Z.to_nat ((Z.of_nat n - 1) / 2 + 1))
                             ++ arange (- Z.of_nat (n / 2)) (n / 2)))%nat)
    by (rewrite length_app, !arange_length; lia).
  rewrite (nth_indep _ 0 (g 0%Z)) by (rewrite length_map; exact Hlen).
  rewrite (map_nth g).
  rewrite app_nth1 by (rewrite arange_length; lia).
  rewrite arange_nth by lia. reflexivity.
Qed.

Lemma bin_frequency (k n : nat) (rate : Z) :
  (0 < n)%nat -> (0 < rate)%Z ->
  inject_Z (Z.of_nat k) * (1 / (inject_Z (Z.of_nat n) * (1 / inject_Z rate)))
  == inject_Z (Z.of_nat k) * inject_Z rate / inject_Z (Z.of_nat n).
Proof.
  intros Hn Hr.
  assert (Hn' : ~ inject_Z (Z.of_nat n) == 0).
  { intro H. assert (0 < inject_Z (Z.of_nat n)) as Hlt
        by (rewrite <- (Zlt_Qlt 0); lia).
    rewrite H in Hlt. exact (Qlt_irrefl _ Hlt). }
  assert (Hr' : ~ inject_Z rate == 0).
  { intro H. assert (0 < inject_Z rate) as Hlt by (rewrite <- (Zlt_Qlt 0); lia).
    rewrite H in Hlt. exact (Qlt_irrefl _ Hlt). }
  field. split; assumption.
Qed.

Lemma bin_below_nyquist (k n : nat) (rate : Z) :
  (k < n / 2)%nat -> (0 < rate)%Z ->
  inject_Z (Z.of_nat k) * inject_Z rate / inject_Z (Z.of_nat n)
  < inject_Z rate / 2.
Proof.
  intros Hk Hr.
  assert (H2k : (2 * k < n)%nat).
  { pose proof (Nat.div_mod_eq n 2). lia. }
  assert (Hn : 0 < inject_Z (Z.of_nat n)) by (rewrite <- (Zlt_Qlt 0); lia).
  assert (Hrq : 0 < inject_Z rate) by (rewrite <- (Zlt_Qlt 0); lia).
  assert (Hkq : 2 * inject_Z (Z.of_nat k) + 1 <= inject_Z (Z.of_nat n)).
  { change 2 with (inject_Z 2). change 1 with (inject_Z 1).
    rewrite <- inject_Z_mult, <- inject_Z_plus, <- Zle_Qle. lia. }
  apply Qlt_shift_div_r; [exact Hn|].
  assert (Hprod : 0 < inject_Z rate
                      * (inject_Z (Z.of_nat n) - 2 * inject_Z (Z.of_nat k))).
  { apply Qmult_lt_0_compat; [exact Hrq | lra]. }
  set (a := inject_Z (Z.of_nat k)) in *.
  set (b := inject_Z (Z.of_nat n)) in *.
  set (r := inject_Z rate) in *.
  assert (E : r / 2 * b - a * r == (1 # 2) * (r * (b - 2 * a))) by field.
  assert (Hd : 0 < r / 2 * b - a * r) by (rewrite E; lra).
  lra.
Qed.

Lemma last_nth_pred (l : list Q) (d : Q) :
  last l d = nth (length l - 1) l d.
Proof.
  induction l as [|a l IH]; [reflexivity|].
  destruct l as [|b l]; [reflexivity|].
  change (last (a :: b :: l) d) with (last (b :: l) d). rewrite IH.
  simpl length.
  replace (S (S (length l)) - 1)%nat with (S (length l)) by lia.
  replace (S (length l) - 1)%nat with (length l) by lia.
  reflexivity.
Qed.

Lemma fft_nth (y : list R) (k : nat) :
  (k < length y)%nat -> nth k (fft y) (0%R, 0%R) = dft_bin y k.
Proof.
  intro H. unfold fft.
  rewrite (nth_indep _ (0%R, 0%R) (dft_bin y O))
    by (rewrite length_map, length_seq; exact H).
  rewrite (map_nth (dft_bin y)), seq_nth by exact H. reflexivity.
Qed.

(** C9: for every signal of N >= 1 samples at a positive sampling rate
    R, the spectrum has exactly floor(N/2) frequency bins and as many
    magnitudes; for k in [0, N/2) the bin is k * R / N, lies strictly
    below R/2 (so the last one does), and the magnitude is
    (2/N) * |DFT bin k|. *)
Theorem C9_magnitude_spectrum (y : list R) (rate : Z) :
  y <> [] -> (0 < rate)%Z ->
  exists xf mag,
    magnitude_spectrum y rate = inr (xf, mag)
    /\ length xf = (length y / 2)%nat
    /\ length mag = (length y / 2)%nat
    /\ (forall k, (k < length y / 2)%nat ->
        nth k xf 0
        == inject_Z (Z.of_nat k) * inject_Z rate / inject_Z (Z.of_nat (length y))
        /\ nth k xf 0 < inject_Z rate / 2
        /\ nth k mag 0%R
           = (2 / INR (length y) * Cabs (dft_bin y k))%R)
    /\ ((2 <= length y)%nat -> last xf 0 < inject_Z rate / 2).
Proof.
  intros Hy Hr.
  set (N := length y).
  assert (HN : (0 < N)%nat) by (unfold N; destruct y; [congruence | simpl; lia]).
  set (xf := firstn (N / 2) (fftfreq N (1 / inject_Z rate))).
  set (mag := map (fun z => (2 / INR N * Cabs z)%R) (firstn (N / 2) (fft y))).
  assert (Hhalf : (N / 2 <= N)%nat) by (apply Nat.Div0.div_le_upper_bound; lia).
  assert (Hxf : length xf = (N / 2)%nat)
    by (apply firstn_length_le, fftfreq_length).
  assert (Hbins : forall k, (k < N / 2)%nat ->
            nth k xf 0
            == inject_Z (Z.of_nat k) * inject_Z rate / inject_Z (Z.of_nat N)).
  { intros k Hk. unfold xf. rewrite nth_firstn.
    destruct (Nat.ltb_spec k (N / 2)); [|lia].
    rewrite fftfreq_nth by exact Hk. apply bin_frequency; assumption. }
  exists xf, mag. split; [|split; [|split; [|split]]].
  - unfold magnitude_spectrum. fold N.
    destruct (Z.eqb_spec rate 0); [lia|].
    destruct N; [lia | reflexivity].
  - exact Hxf.
  - unfold mag. rewrite length_map. apply firstn_length_le.
    unfold fft. rewrite length_map, length_seq. exact Hhalf.
  - intros k Hk. split; [apply Hbins; exact Hk|]. split.
    + rewrite (Hbins k Hk). apply bin_below_nyquist; assumption.
    + unfold mag.
      set (g := fun z : R * R => (2 / INR N * Cabs z)%R).
      assert (Hl : (k < length (firstn (N / 2) (fft y)))%nat).
      { rewrite firstn_length_le; [exact Hk|].
        unfold fft. rewrite length_map, length_seq. exact Hhalf. }
      rewrite (nth_indep _ 0%R (g (0%R, 0%R)))
        by (rewrite length_map; exact Hl).
      rewrite (map_nth g), nth_firstn.
      destruct (Nat.ltb_spec k (N / 2)); [|lia].
      rewrite fft_nth by (unfold N in *; lia). reflexivity.
  - intro H2.
    assert (Hpos : (0 < N / 2)%nat)
      by (apply Nat.div_str_pos; unfold N; lia).
    assert (Hlast : last xf 0 = nth (N / 2 - 1) xf 0).
    { rewrite <- Hxf. apply last_nth_pred. }
    rewrite Hlast, (Hbins (N / 2 - 1)%nat) by lia.
    apply bin_below_nyquist; [lia | exact Hr].
Qed.

Lemma C9_magnitude_spectrum_witness :
  exists xf mag,
    magnitude_spectrum [1; 0; (-1); 0; 1]%R 1000 = inr (xf, mag)
    /\ length xf = 2%nat
    /\ length mag = 2%nat.
Proof.
  destruct (C9_magnitude_spectrum [1; 0; (-1); 0; 1]%R 1000)
    as [xf [mag [H1 [H2 [H3 _]]]]].
  - discriminate.
  - lia.
  - exists xf, mag. split; [exact H1|]. split; [exact H2 | exact H3].
Defined.

(** * Further properties of the point set *)

(** ** Undo *)

Lemma apply_edit_history (e : Edit) (s : PlotCanvas) :
  history (apply_edit e s) = history s ++ [points s].
Proof.
  destruct e as [x y | o n | p].
  - exact (add_point_history x y s).
  - exact (move_point_history o n s).
  - exact (delete_point_history p s).
Qed.

Lemma undo_pops (s : PlotCanvas) (h : list (list Point)) (top : list Point) :
  history s = h ++ [top] ->
  points (undo s) = list_sort top
  /\ history (undo s) = h
  /\ original_points (undo s) = original_points s.
Proof.
  intro H. unfold undo. rewrite H, rev_app_distr. simpl.
  rewrite rev_involutive. repeat split.
Qed.

Lemma apply_edit_sorted_tuples (e : Edit) (s : PlotCanvas) :
  sorted_tuples (points s) -> sorted_tuples (points (apply_edit e s)).
Proof.
  intro Hs. destruct e as [x y | o n | p]; simpl.
  - unfold add_point. rewrite points_update_plot. apply list_sort_sorted.
  - unfold move_point. destruct (point_in o (points (record_history s))).
    + rewrite points_update_plot. apply list_sort_sorted.
    + exact Hs.
  - unfold delete_point. destruct (point_in p (points (record_history s))).
    + rewrite points_update_plot. apply list_sort_sorted.
    + exact Hs.
Qed.

(** X1: undo after one point edit brings back the history as it was
    and the re-sorted curve of before the edit, which is that curve
    itself when it was in the order of the sort. *)
Theorem undo_after_edit (e : Edit) (s : PlotCanvas) :
  points (undo (apply_edit e s)) = list_sort (points s)
  /\ history (undo (apply_edit e s)) = history s
  /\ (sorted_tuples (points s) -> points (undo (apply_edit e s)) = points s).
Proof.
  destruct (undo_pops (apply_edit e s) (history s) (points s)
                      (apply_edit_history e s)) as [Hp [Hh _]].
  split; [exact Hp|]. split; [exact Hh|].
  intro Hs. rewrite Hp. apply list_sort_id. exact Hs.
Qed.

Lemma undo_after_edit_witness :
  points (undo (apply_edit (Move (0, 0) (3, 1)) initial_canvas))
  = points initial_canvas.
Proof.
  apply (undo_after_edit (Move (0, 0) (3, 1)) initial_canvas).
  apply list_sort_sorted.
Defined.

(** X2: as many undos as there were point edits bring back the curve
    and the history of before the edits, for a curve that was in the
    order of the sort. *)
Theorem undo_all_edits (es : list Edit) (s : PlotCanvas) :
  sorted_tuples (points s) ->
  points (Nat.iter (length es) undo
                   (fold_left (fun t e => apply_edit e t) es s))
  = points s
  /\ history (Nat.iter (length es) undo
                       (fold_left (fun t e => apply_edit e t) es s))
     = history s.
Proof.
  revert s. induction es as [|e es IH]; intros s Hs.
  - split; reflexivity.
  - simpl fold_left. simpl length. simpl Nat.iter.
    destruct (IH (apply_edit e s) (apply_edit_sorted_tuples e s Hs))
      as [_ Hh].
    rewrite apply_edit_history in Hh.
    destruct (undo_pops _ _ _ Hh) as [Hp' [Hh' _]].
    split; [|exact Hh'].
    rewrite Hp'. apply list_sort_id. exact Hs.
Qed.

Lemma undo_all_edits_witness :
  points (Nat.iter 3 undo
            (fold_left (fun t e => apply_edit e t)
                       [Add 5 1; Move (5, 1) (2, 2); Delete (0, 0)]
                       initial_canvas))
  = points initial_canvas.
Proof.
  apply (undo_all_edits [Add 5 1; Move (5, 1) (2, 2); Delete (0, 0)]
                        initial_canvas).
  apply list_sort_sorted.
Defined.

(** ** One list under two names *)

Lemma apply_edit_shared (e : Edit) (s : PlotCanvas) (l : list Point) :
  store s = Shared l ->
  store (apply_edit e s) = Shared (points (apply_edit e s)).
Proof.
  intro H. destruct s as [st h ip sp sf]. simpl in H. subst st.
  destruct e as [x y | o n | p]; simpl.
  - reflexivity.
  - unfold move_point, points. simpl.
    destruct (point_in o l); reflexivity.
  - unfold delete_point, points. simpl.
    destruct (point_in p l); reflexivity.
Qed.

(** X3: on a loaded curve (one list under both names, in the order of
    the sort) a point edit changes the original curve with the curve;
    reset then gives the edited curve back, and undo restores the curve
    but leaves the original curve edited. *)
Theorem loaded_edit_reaches_original (e : Edit) (s : PlotCanvas)
        (l : list Point) :
  store s = Shared l -> sorted_tuples l -> points (apply_edit e s) <> [] ->
  original_points (apply_edit e s) = points (apply_edit e s)
  /\ points (reset_plot (apply_edit e s)) = points (apply_edit e s)
  /\ points (undo (apply_edit e s)) = l
  /\ original_points (undo (apply_edit e s)) = points (apply_edit e s).
Proof.
  intros Hst Hs Hne.
  assert (Hl : points s = l) by (unfold points; rewrite Hst; reflexivity).
  assert (Ho : original_points (apply_edit e s) = points (apply_edit e s)).
  { unfold original_points. rewrite (apply_edit_shared e s l Hst). reflexivity. }
  assert (Hsorted : sorted_tuples (points (apply_edit e s))).
  { apply apply_edit_sorted_tuples. rewrite Hl. exact Hs. }
  split; [exact Ho|]. split; [|split].
  - unfold reset_plot. rewrite Ho.
    destruct (points (apply_edit e s)) as [|p r] eqn:E; [congruence|].
    rewrite points_update_plot.
    change (points (with_store (rebind_points (p :: r) (store (apply_edit e s)))
                               (apply_edit e s))) with (p :: r).
    apply list_sort_id. exact Hsorted.
  - destruct (undo_pops (apply_edit e s) (history s) (points s)
                        (apply_edit_history e s)) as [H _].
    rewrite H, Hl. apply list_sort_id. exact Hs.
  - destruct (undo_pops (apply_edit e s) (history s) (points s)
                        (apply_edit_history e s)) as [_ [_ H]].
    rewrite H. exact Ho.
Qed.

Lemma loaded_edit_reaches_original_witness :
  points (reset_plot
            (apply_edit (Add 5 5)
                        (load_points [(0, 0); (10, 1)] initial_canvas)))
  = [(0, 0); (5, 5); (10, 1)]
  /\ original_points
       (undo (apply_edit (Add 5 5)
                         (load_points [(0, 0); (10, 1)] initial_canvas)))
     = [(0, 0); (5, 5); (10, 1)].
Proof.
  destruct (loaded_edit_reaches_original
              (Add 5 5) (load_points [(0, 0); (10, 1)] initial_canvas)
              [(0, 0); (10, 1)]) as [_ [H2 [_ H4]]].
  - reflexivity.
  - repeat constructor.
  - discriminate.
  - split; [exact H2 | exact H4].
Defined.

(** ** Reset *)

(** X4: reset never changes the original curve or the history (it
    cannot be undone); it puts the re-sorted original curve in place of
    the curve, or the default point when there is no original point, and
    a second reset changes nothing more. *)
Theorem reset_plot_restores (s : PlotCanvas) :
  original_points (reset_plot s) = original_points s
  /\ history (reset_plot s) = history s
  /\ (original_points s <> [] ->
      points (reset_plot s) = list_sort (original_points s))
  /\ (original_points s = [] -> points (reset_plot s) = [(0, 0)])
  /\ reset_plot (reset_plot s) = reset_plot s.
Proof.
  destruct s as [st h ip sp sf].
  unfold reset_plot, original_points, points. simpl.
  destruct (store_original st) as [|p l] eqn:E;
    unfold update_plot, with_store, rebind_points; simpl; rewrite ?E; simpl;
    rewrite ?E; repeat split; try reflexivity; congruence.
Qed.

(** X5: overall reset leaves the default point as the curve and no
    original point at all, and keeps the history and the stored
    interpolation; downsampling then fails for want of original
    points, whatever the stride. *)
Theorem overall_reset_state (k : Z) (s : PlotCanvas) :
  points (overall_reset s) = [(0, 0)]
  /\ original_points (overall_reset s) = []
  /\ history (overall_reset s) = history s
  /\ interpolated_points (overall_reset s) = interpolated_points s
  /\ downsample_points k (overall_reset s)
     = Failed NoOriginalPoints (overall_reset s).
Proof. repeat split. Qed.

(** ** What an edit does to the points *)

Lemma insert_perm (p : Point) (l : list Point) :
  Permutation (insert p l) (p :: l).
Proof.
  induction l as [|q l IH]; simpl; [apply Permutation_refl|].
  destruct (point_ltb q p); [|apply Permutation_refl].
  apply perm_trans with (q :: p :: l);
    [apply perm_skip; exact IH | apply perm_swap].
Qed.

Lemma list_sort_perm (l : list Point) : Permutation (list_sort l) l.
Proof.
  induction l as [|p l IH]; simpl; [apply perm_nil|].
  apply perm_trans with (p :: list_sort l);
    [apply insert_perm | apply perm_skip; exact IH].
Qed.

Lemma list_remove_perm (p : Point) (l : list Point) :
  point_in p l = true ->
  exists q, point_eqb q p = true /\ Permutation (q :: list_remove p l) l.
Proof.
  unfold point_in. induction l as [|a l IH]; simpl; [discriminate|].
  destruct (point_eqb a p) eqn:E; simpl.
  - intros _. exists a. split; [exact E | apply Permutation_refl].
  - intro H. destruct (IH H) as [q [Hq Hperm]]. exists q.
    split; [exact Hq|].
    apply perm_trans with (a :: q :: list_remove p l);
      [apply perm_swap | apply perm_skip; exact Hperm].
Qed.

(** X6: a point edit loses and invents no point.  add_point adds its
    point to the points there were; delete_point of a point on the curve
    takes away one point equal to it, and of an absent point nothing;
    move_point of a point on the curve takes away one point equal to
    the old one and adds the new one. *)
Theorem edits_conserve_points (s : PlotCanvas) :
  (forall x y, Permutation (points (add_point x y s)) ((x, y) :: points s))
  /\ (forall p, point_in p (points s) = true ->
        exists q, point_eqb q p = true
                  /\ Permutation (q :: points (delete_point p s)) (points s))
  /\ (forall p, point_in p (points s) = false ->
        points (delete_point p s) = points s)
  /\ (forall o n, point_in o (points s) = true ->
        exists q, point_eqb q o = true
                  /\ Permutation (q :: points (move_point o n s))
                                 (n :: points s)).
Proof.
  split; [|split; [|split]].
  - intros x y. unfold add_point.
    rewrite points_update_plot, points_mutate, points_record_history.
    apply perm_trans with (points s ++ [(x, y)]);
      [apply list_sort_perm|].
    apply Permutation_sym, Permutation_cons_append.
  - intros p H. unfold delete_point. rewrite points_record_history, H.
    rewrite points_update_plot, points_mutate, points_record_history.
    destruct (list_remove_perm p (points s) H) as [q [Hq Hperm]].
    exists q. split; [exact Hq|].
    apply perm_trans with (q :: list_remove p (points s)); [|exact Hperm].
    apply perm_skip, list_sort_perm.
  - intros p H. unfold delete_point. rewrite points_record_history, H.
    reflexivity.
  - intros o n H. unfold move_point. rewrite points_record_history, H.
    rewrite points_update_plot, points_mutate, points_mutate,
      points_record_history.
    destruct (list_remove_perm o (points s) H) as [q [Hq Hperm]].
    exists q. split; [exact Hq|].
    apply perm_trans with (q :: list_remove o (points s) ++ [n]).
    + apply perm_skip, list_sort_perm.
    + apply perm_trans with (n :: q :: list_remove o (points s)).
      * apply Permutation_sym.
        apply (Permutation_cons_append (q :: list_remove o (points s)) n).
      * apply perm_skip. exact Hperm.
Qed.

(** ** Selecting, dragging and deleting *)

Lemma point_eqb_refl (p : Point) : point_eqb p p = true.
Proof.
  unfold point_eqb. apply andb_true_intro.
  split; apply Qeq_bool_iff; reflexivity.
Qed.

Lemma In_point_in (p : Point) (l : list Point) : In p l -> point_in p l = true.
Proof.
  intro H. unfold point_in. apply existsb_exists. exists p.
  split; [exact H | apply point_eqb_refl].
Qed.

Lemma closest_fold (x y : Q) (l : list Point) (m0 : Point) :
  let step := fun m q =>
                if Qlt_bool (sq_dist x y q) (sq_dist x y m) then q else m in
  let r := fold_left step l m0 in
  In r (m0 :: l)
  /\ sq_dist x y r <= sq_dist x y m0
  /\ (forall q, In q l -> sq_dist x y r <= sq_dist x y q).
Proof.
  intros step r. subst r. revert m0.
  induction l as [|a l IH]; intro m0; simpl.
  - split; [left; reflexivity|]. split; [apply Qle_refl|]. intros q [].
  - destruct (IH (step m0 a)) as [Hin [Hle Hall]].
    assert (Hstep : sq_dist x y (step m0 a) <= sq_dist x y m0
                    /\ sq_dist x y (step m0 a) <= sq_dist x y a
                    /\ (step m0 a = m0 \/ step m0 a = a)).
    { unfold step. destruct (Qlt_bool (sq_dist x y a) (sq_dist x y m0)) eqn:E.
      - apply Qlt_bool_true in E. split; [apply Qlt_le_weak; exact E|].
        split; [apply Qle_refl | right; reflexivity].
      - apply Qlt_bool_false in E. split; [apply Qle_refl|].
        split; [exact E | left; reflexivity]. }
    destruct Hstep as [H1 [H2 H3]].
    split; [|split].
    + destruct Hin as [Hin | Hin].
      * destruct H3 as [H3 | H3]; rewrite <- Hin, H3;
          [left; reflexivity | right; left; reflexivity].
      * right; right; exact Hin.
    + eapply Qle_trans; eassumption.
    + intros q [Hq | Hq].
      * subst q. eapply Qle_trans; eassumption.
      * apply Hall. exact Hq.
Qed.

Lemma find_closest_point_some (x y : Q) (s : PlotCanvas) :
  points s <> [] ->
  exists p, find_closest_point x y s = Some p /\ point_in p (points s) = true.
Proof.
  intro Hne. unfold find_closest_point.
  destruct (points s) as [|p0 l]; [congruence|].
  eexists. split; [reflexivity|].
  apply In_point_in. apply (closest_fold x y l p0).
Qed.

(** X7: find_closest_point finds nothing exactly on an empty curve;
    otherwise it returns a point of the curve, which the membership test
    of the edits accepts, and no point of the curve is nearer to the
    clicked position. *)
Theorem find_closest_point_spec (x y : Q) (s : PlotCanvas) :
  (find_closest_point x y s = None <-> points s = [])
  /\ (forall p, find_closest_point x y s = Some p ->
        In p (points s)
        /\ point_in p (points s) = true
        /\ forall q, In q (points s) -> sq_dist x y p <= sq_dist x y q).
Proof.
  unfold find_closest_point. destruct (points s) as [|p0 l].
  - split; [split; reflexivity | discriminate].
  - split; [split; discriminate|].
    intros p H. injection H as <-.
    destruct (closest_fold x y l p0) as [Hin [Hle Hall]].
    split; [exact Hin|]. split; [apply In_point_in; exact Hin|].
    intros q [Hq | Hq]; [subst q; exact Hle | apply Hall; exact Hq].
Qed.

Lemma list_remove_length (p : Point) (l : list Point) :
  point_in p l = true -> S (length (list_remove p l)) = length l.
Proof.
  unfold point_in. induction l as [|a l IH]; simpl; [discriminate|].
  destruct (point_eqb a p); simpl; [reflexivity|].
  intro H. rewrite IH by exact H. reflexivity.
Qed.

Lemma delete_point_length (p : Point) (s : PlotCanvas) :
  point_in p (points s) = true ->
  S (length (points (delete_point p s))) = length (points s).
Proof.
  intro H. unfold delete_point. rewrite points_record_history, H.
  rewrite points_update_plot, points_mutate, points_record_history.
  rewrite list_sort_length. apply list_remove_length. exact H.
Qed.

(** X8: a plain left click at a position with non-zero coordinates on
    a non-empty curve followed by the Delete key removes exactly one
    point, pushes one history snapshot and clears the selection, so
    that a second Delete changes nothing. *)
Theorem click_then_delete (ev : MouseEvent) (a : App) :
  button ev = 1%Z -> truthy (xdata ev) = true -> truthy (ydata ev) = true ->
  points (plot_canvas a) <> [] ->
  let a' := keyPressEvent DeleteKey (on_click false ev a) in
  S (length (points (plot_canvas a'))) = length (points (plot_canvas a))
  /\ history (plot_canvas a')
     = history (plot_canvas a) ++ [points (plot_canvas a)]
  /\ selected_point a' = None
  /\ keyPressEvent DeleteKey a' = a'.
Proof.
  intros Hb Hx Hy Hne a'. subst a'.
  unfold on_click. rewrite Hb, Hx, Hy. simpl.
  destruct (find_closest_point_some (coordinate (xdata ev))
              (coordinate (ydata ev)) (plot_canvas a) Hne) as [p [E Hin]].
  rewrite E. simpl.
  split; [apply delete_point_length; exact Hin|].
  split; [apply delete_point_history|]. split; reflexivity.
Qed.

Lemma click_then_delete_witness :
  S (length (points (plot_canvas
       (keyPressEvent DeleteKey
          (on_click false (mkEvent 1 (Some 3) (Some (1 # 2)))
                    (mkApp (add_point 4 1 initial_canvas) None))))))
  = length (points (add_point 4 1 initial_canvas)).
Proof.
  refine (proj1 (click_then_delete (mkEvent 1 (Some 3) (Some (1 # 2)))
                   (mkApp (add_point 4 1 initial_canvas) None)
                   eq_refl eq_refl eq_refl _)).
  discriminate.
Defined.

Lemma point_in_insert (n p : Point) (l : list Point) :
  point_in n (insert p l) = point_eqb p n || point_in n l.
Proof.
  unfold point_in. induction l as [|q l IH]; simpl; [reflexivity|].
  destruct (point_ltb q p); simpl; [|reflexivity].
  rewrite IH.
  destruct (point_eqb q n), (point_eqb p n); reflexivity.
Qed.

Lemma point_in_list_sort (n : Point) (l : list Point) :
  point_in n (list_sort l) = point_in n l.
Proof.
  induction l as [|p l IH]; simpl; [reflexivity|].
  rewrite point_in_insert, IH. reflexivity.
Qed.

Lemma point_in_app_last (n : Point) (l : list Point) :
  point_in n (l ++ [n]) = true.
Proof.
  unfold point_in. rewrite existsb_app. simpl.
  rewrite point_eqb_refl. apply orb_true_iff. right. reflexivity.
Qed.

Lemma move_point_present (o n : Point) (s : PlotCanvas) :
  point_in o (points s) = true ->
  points (move_point o n s) = list_sort (list_remove o (points s) ++ [n])
  /\ length (points (move_point o n s)) = length (points s)
  /\ point_in n (points (move_point o n s)) = true.
Proof.
  intro H. unfold move_point. rewrite points_record_history, H.
  rewrite points_update_plot, points_mutate, points_mutate,
    points_record_history.
  split; [reflexivity|]. split.
  - rewrite list_sort_length, length_app. simpl.
    rewrite <- (list_remove_length o (points s) H). lia.
  - rewrite point_in_list_sort. apply point_in_app_last.
Qed.

(** X9: once a point of the curve is selected, a drag (any sequence
    of mouse moves with the left button at positions of non-zero
    coordinates) keeps the number of points, pushes one history
    snapshot per mouse move, and ends with a selected point that is on
    the curve. *)
Theorem drag_keeps_curve_size (evs : list MouseEvent) (a : App) (sel : Point) :
  selected_point a = Some sel ->
  point_in sel (points (plot_canvas a)) = true ->
  Forall (fun ev => button ev = 1%Z /\ truthy (xdata ev) = true
                    /\ truthy (ydata ev) = true) evs ->
  let a' := fold_left (fun t ev => on_move ev t) evs a in
  length (points (plot_canvas a')) = length (points (plot_canvas a))
  /\ length (history (plot_canvas a'))
     = (length (history (plot_canvas a)) + length evs)%nat
  /\ exists sel', selected_point a' = Some sel'
                 /\ point_in sel' (points (plot_canvas a')) = true.
Proof.
  intros Hsel Hin Hall. simpl. revert a sel Hsel Hin.
  induction Hall as [|ev evs [Hb [Hx Hy]] _ IH]; intros a sel Hsel Hin.
  - simpl. split; [reflexivity|]. split; [lia|]. exists sel. split; assumption.
  - simpl fold_left.
    assert (Hstep : on_move ev a
                    = mkApp (move_point sel (coordinate (xdata ev),
                                              coordinate (ydata ev))
                                        (plot_canvas a))
                            (Some (coordinate (xdata ev),
                                   coordinate (ydata ev)))).
    { unfold on_move. rewrite Hsel, Hb, Hx, Hy. reflexivity. }
    rewrite Hstep.
    destruct (move_point_present sel (coordinate (xdata ev),
                                      coordinate (ydata ev))
                                 (plot_canvas a) Hin) as [_ [Hlen Hnew]].
    destruct (IH (mkApp (move_point sel (coordinate (xdata ev),
                                         coordinate (ydata ev))
                                    (plot_canvas a))
                        (Some (coordinate (xdata ev), coordinate (ydata ev))))
                 (coordinate (xdata ev), coordinate (ydata ev))
                 eq_refl Hnew) as [H1 [H2 H3]].
    simpl plot_canvas in *.
    split; [rewrite H1; exact Hlen|]. split; [|exact H3].
    rewrite H2, move_point_history, length_app. simpl. lia.
Qed.

Lemma drag_keeps_curve_size_witness :
  length (points (plot_canvas
            (fold_left (fun t ev => on_move ev t)
               [mkEvent 1 (Some 1) (Some 1); mkEvent 1 (Some 2) (Some 3)]
               (mkApp initial_canvas (Some (0, 0))))))
  = length (points initial_canvas).
Proof.
  refine (proj1 (drag_keeps_curve_size
                   [mkEvent 1 (Some 1) (Some 1); mkEvent 1 (Some 2) (Some 3)]
                   (mkApp initial_canvas (Some (0, 0))) (0, 0)
                   eq_refl eq_refl _)).
  repeat constructor.
Defined.

(** * Further properties of the resampling *)

Lemma downsample_points_original (k : Z) (s : PlotCanvas) :
  original_points (final_state (downsample_points k s)) = original_points s.
Proof.
  unfold downsample_points.
  destruct (original_points s) as [|p l] eqn:E; [simpl; exact E|].
  destruct (Z.of_nat _ <=? k)%Z; [simpl; exact E|].
  destruct (slice_step _ k) as [d|]; [|simpl; exact E].
  destruct (length d <? 2)%nat; [simpl; exact E|].
  unfold original_points. simpl. exact E.
Qed.

(** X10: downsampling always starts from the original curve, so it
    does not compound: a downsampling that succeeds gives the same curve
    after any earlier downsampling, successful or not, as on its own. *)
Theorem downsample_does_not_compound (k1 k2 : Z) (s : PlotCanvas) :
  (1 <= k2)%Z -> (k2 < Z.of_nat (length (original_points s)))%Z ->
  points (final_state
            (downsample_points k2 (final_state (downsample_points k1 s))))
  = points (final_state (downsample_points k2 s)).
Proof.
  intros H1 H2.
  pose proof (downsample_points_original k1 s) as Ho.
  rewrite (downsample_points_ok k2 s H1 H2).
  rewrite (downsample_points_ok k2 (final_state (downsample_points k1 s)) H1)
    by (rewrite Ho; exact H2).
  simpl final_state. rewrite !points_update_plot. rewrite Ho. reflexivity.
Qed.

Lemma downsample_does_not_compound_witness :
  points (final_state
            (downsample_points 2 (final_state (downsample_points 3 line_canvas))))
  = points (final_state (downsample_points 2 line_canvas)).
Proof.
  apply (downsample_does_not_compound 3 2 line_canvas).
  - lia.
  - simpl. lia.
Defined.

Lemma take_every_nth (k : nat) (l : list Point) (i j : nat) :
  (1 <= k)%nat ->
  nth_error (take_every k i l) j = nth_error l (i + j * k).
Proof.
  intro Hk. revert i j. induction l as [|p l IH]; intros i j; simpl.
  - destruct j, (i + _)%nat; reflexivity.
  - destruct i as [|i].
    + destruct j as [|j]; [reflexivity|].
      simpl nth_error at 1. rewrite IH.
      replace (0 + S j * k)%nat with (S (k - 1 + j * k)) by lia.
      reflexivity.
    + rewrite IH. reflexivity.
Qed.

(** X11: after a successful downsampling of an original curve that
    is in the order of the sort, the j-th point of the curve is the
    original point of index j * stride, and the last point of the curve
    is the original point of index ((len - 1) / stride) * stride, which
    is the last original point only when the stride divides len - 1. *)
Theorem downsample_picks_multiples (k : Z) (s : PlotCanvas) :
  (1 <= k)%Z -> (k < Z.of_nat (length (original_points s)))%Z ->
  sorted_tuples (original_points s) ->
  let s' := final_state (downsample_points k s) in
  let n := length (original_points s) in
  (forall j, nth_error (points s') j
             = nth_error (original_points s) (j * Z.to_nat k))
  /\ nth_error (points s') (length (points s') - 1)
     = nth_error (original_points s) ((n - 1) / Z.to_nat k * Z.to_nat k)
  /\ ((n - 1) / Z.to_nat k * Z.to_nat k = n - 1
      <-> (n - 1) mod Z.to_nat k = 0)%nat.
Proof.
  intros H1 H2 Hs s' n. subst s'.
  rewrite (downsample_points_ok k s H1 H2). simpl final_state.
  rewrite points_update_plot.
  change (points (with_store
                    (rebind_points
                       (take_every (Z.to_nat k) 0 (original_points s))
                       (store s)) s))
    with (take_every (Z.to_nat k) 0 (original_points s)).
  rewrite (list_sort_id _ (take_every_sorted _ _ _ Hs)).
  assert (Hk : (1 <= Z.to_nat k)%nat) by lia.
  assert (Hn : (Z.to_nat k < n)%nat) by (unfold n; lia).
  split; [|split].
  - intro j. rewrite take_every_nth by exact Hk. reflexivity.
  - rewrite take_every_nth by exact Hk. simpl plus.
    rewrite take_every_length by exact Hk. rewrite Nat.sub_0_r.
    fold n. unfold ceil_div.
    replace (n + Z.to_nat k - 1)%nat with (n - 1 + 1 * Z.to_nat k)%nat by lia.
    rewrite Nat.div_add by lia.
    replace ((n - 1) / Z.to_nat k + 1 - 1)%nat with ((n - 1) / Z.to_nat k)%nat
      by lia.
    reflexivity.
  - pose proof (Nat.div_mod_eq (n - 1) (Z.to_nat k)) as Hdm. split; nia.
Qed.

Lemma downsample_picks_multiples_witness :
  nth_error (points (final_state (downsample_points 2 line_canvas))) 2
  = nth_error (original_points line_canvas) 4.
Proof.
  refine (proj1 (downsample_picks_multiples 2 line_canvas _ _
                   line_canvas_sorted) 2%nat).
  - lia.
  - simpl. lia.
Defined.

Lemma fold_min_le (r : list Q) (m : Q) :
  let res := fold_left (fun m a => if Qlt_bool a m then a else m) r m in
  res <= m /\ forall a, In a r -> res <= a.
Proof.
  simpl. revert m. induction r as [|b r IH]; intro m; simpl.
  - split; [apply Qle_refl | intros a []].
  - destruct (IH (if Qlt_bool b m then b else m)) as [H1 H2].
    assert (Hs : (if Qlt_bool b m then b else m) <= m
                 /\ (if Qlt_bool b m then b else m) <= b).
    { destruct (Qlt_bool b m) eqn:E.
      - apply Qlt_bool_true in E. split; [apply Qlt_le_weak; exact E|].
        apply Qle_refl.
      - apply Qlt_bool_false in E. split; [apply Qle_refl | exact E]. }
    destruct Hs as [Hm Hb]. split.
    + eapply Qle_trans; eassumption.
    + intros a [Ha | Ha]; [subst a; eapply Qle_trans; eassumption|].
      apply H2. exact Ha.
Qed.

Lemma fold_max_ge (r : list Q) (m : Q) :
  let res := fold_left (fun m a => if Qlt_bool m a then a else m) r m in
  m <= res /\ forall a, In a r -> a <= res.
Proof.
  simpl. revert m. induction r as [|b r IH]; intro m; simpl.
  - split; [apply Qle_refl | intros a []].
  - destruct (IH (if Qlt_bool m b then b else m)) as [H1 H2].
    assert (Hs : m <= (if Qlt_bool m b then b else m)
                 /\ b <= (if Qlt_bool m b then b else m)).
    { destruct (Qlt_bool m b) eqn:E.
      - apply Qlt_bool_true in E. split; [apply Qlt_le_weak; exact E|].
        apply Qle_refl.
      - apply Qlt_bool_false in E. split; [apply Qle_refl | exact E]. }
    destruct Hs as [Hm Hb]. split.
    + eapply Qle_trans; eassumption.
    + intros a [Ha | Ha]; [subst a; eapply Qle_trans; eassumption|].
      apply H2. exact Ha.
Qed.

Lemma py_min_le_py_max (xs : list Q) : py_min xs <= py_max xs.
Proof.
  destruct xs as [|x r]; [apply Qle_refl|]. simpl.
  apply Qle_trans with x;
    [exact (proj1 (fold_min_le r x)) | exact (proj1 (fold_max_ge r x))].
Qed.

Lemma linspace_bounds (a b : Q) (n : nat) (x : Q) :
  a <= b -> In x (linspace a b n) -> a <= x <= b.
Proof.
  intros Hab Hin. destruct n as [|[|m]].
  - destruct Hin.
  - destruct Hin as [<- | []]. split; [apply Qle_refl | exact Hab].
  - unfold linspace in Hin. apply in_app_or in Hin.
    destruct Hin as [Hin | [<- | []]];
      [| split; [exact Hab | apply Qle_refl]].
    apply in_map_iff in Hin. destruct Hin as [i [<- Hi]].
    apply in_seq in Hi.
    set (t := inject_Z (Z.of_nat i)).
    set (M := inject_Z (Z.of_nat (S m))).
    assert (Ht : 0 <= t) by (unfold t; rewrite <- (Zle_Qle 0); lia).
    assert (HtM : t <= M) by (unfold t, M; rewrite <- Zle_Qle; lia).
    assert (HM : 0 < M) by (unfold M; rewrite <- (Zlt_Qlt 0); lia).
    assert (Hd : 0 <= (b - a) / M).
    { apply Qle_shift_div_l; [exact HM | lra]. }
    assert (HMd : M * ((b - a) / M) == b - a).
    { field. intro H0. rewrite H0 in HM. exact (Qlt_irrefl _ HM). }
    assert (Hlo : 0 <= t * ((b - a) / M))
      by (apply Qmult_le_0_compat; assumption).
    assert (Hhi : t * ((b - a) / M) <= M * ((b - a) / M))
      by (apply Qmult_le_compat_r; assumption).
    rewrite HMd in Hhi. split; lra.
Qed.

Section ResamplingFacts.

Variable UnivariateSpline : list Q -> list Q -> Q -> option (Q -> Q).

(** X12: interpolation always reads the curve, never its own earlier
    output, so it does not compound: interpolating after an earlier
    interpolation leaves the canvas in the state it would have without
    the earlier one. *)
Theorem interpolation_does_not_compound (ppd1 ppd2 : Z) (s : PlotCanvas) :
  final_state
    (interpolate_points UnivariateSpline ppd2
       (final_state (interpolate_points UnivariateSpline ppd1 s)))
  = final_state (interpolate_points UnivariateSpline ppd2 s).
Proof.
  unfold interpolate_points.
  destruct (interp_source s) as [pts|] eqn:E; simpl; [|rewrite E; reflexivity].
  destruct (spline_function UnivariateSpline pts s) as [f|] eqn:Ef; simpl.
  - change (interp_source (with_interpolated _ s)) with (interp_source s).
    rewrite E.
    change (spline_function UnivariateSpline pts (with_interpolated _ s))
      with (spline_function UnivariateSpline pts s).
    rewrite Ef. reflexivity.
  - rewrite E, Ef. reflexivity.
Qed.

(** X13: a successful interpolation leaves the curve, the original
    curve and the history as they were; the interpolated curve it
    stores has at least 2 points, and the x of each lies between the
    least and the greatest x of the input. *)
Theorem interpolation_output_shape (ppd : Z) (s s' : PlotCanvas)
        (pts : list Point) :
  interp_source s = Some pts ->
  interpolate_points UnivariateSpline ppd s = Done s' ->
  points s' = points s
  /\ original_points s' = original_points s
  /\ history s' = history s
  /\ exists out,
       interpolated_points s' = Some out
       /\ (2 <= length out)%nat
       /\ Forall (fun p => py_min (map px pts) <= px p <= py_max (map px pts))
                 out.
Proof.
  intros Hsrc H. unfold interpolate_points in H. rewrite Hsrc in H.
  destruct (spline_function UnivariateSpline pts s) as [f|]; [|discriminate].
  injection H as <-. repeat split.
  eexists. split; [reflexivity|]. split.
  - unfold sample. rewrite length_map, linspace_length.
    pose proof (total_points_ge_2 pts ppd). lia.
  - apply Forall_forall. intros p Hp. unfold sample in Hp.
    apply in_map_iff in Hp. destruct Hp as [x [<- Hx]]. simpl.
    apply (linspace_bounds _ _ _ _ (py_min_le_py_max _) Hx).
Qed.

Lemma smoothing_spline_apply_edit (e : Edit) (s : PlotCanvas) :
  smoothing_spline (apply_edit e s) = smoothing_spline s.
Proof.
  destruct e as [x y | o n | p]; simpl.
  - reflexivity.
  - unfold move_point. destruct (point_in o _); reflexivity.
  - unfold delete_point. destruct (point_in p _); reflexivity.
Qed.

Lemma smoothing_spline_edits (es : list Edit) (s : PlotCanvas) :
  smoothing_spline (fold_left (fun t e => apply_edit e t) es s)
  = smoothing_spline s.
Proof.
  revert s. induction es as [|e es IH]; intro s; simpl; [reflexivity|].
  rewrite IH. apply smoothing_spline_apply_edit.
Qed.

(** X14: the spline that apply_smoothing fits to a curve of at least
    2 points stays stored through any later point edits, and every
    later interpolation samples that spline, fitted to the curve as it
    was, instead of fitting the edited curve. *)
Theorem smoothing_spline_outlives_edits
        (factor : Q) (ppd : Z) (es : list Edit) (s s1 : PlotCanvas) :
  (2 <= length (points s))%nat ->
  apply_smoothing UnivariateSpline factor s = Done s1 ->
  exists f,
    UnivariateSpline (map px (points s)) (map py (points s)) factor = Some f
    /\ smoothing_spline (fold_left (fun t e => apply_edit e t) es s1) = Some f
    /\ forall pts,
        interp_source (fold_left (fun t e => apply_edit e t) es s1) = Some pts ->
        interpolate_points UnivariateSpline ppd
                           (fold_left (fun t e => apply_edit e t) es s1)
        = Done (with_interpolated
                  (Some (sample f
                           (linspace (py_min (map px pts)) (py_max (map px pts))
                                     (Z.to_nat (total_points pts ppd)))))
                  (fold_left (fun t e => apply_edit e t) es s1)).
Proof.
  intros Hlen H. unfold apply_smoothing in H.
  change (points (mkCanvas (store s) (history s) (interpolated_points s)
                           (smoothing_spline s) (Some factor)))
    with (points s) in H.
  destruct (Nat.ltb_spec 1 (length (points s))); [|lia].
  destruct (UnivariateSpline (map px (points s)) (map py (points s)) factor)
    as [f|] eqn:Ef; [|discriminate].
  injection H as <-. exists f. split; [reflexivity|].
  assert (Hsp : smoothing_spline
                  (fold_left (fun t e => apply_edit e t) es
                     (update_plot
                        (mkCanvas (store s) (history s) (interpolated_points s)
                                  (Some f) (Some factor)))) = Some f)
    by (rewrite smoothing_spline_edits; reflexivity).
  split; [exact Hsp|].
  intros pts Hsrc. unfold interpolate_points, spline_function.
  rewrite Hsrc, Hsp. reflexivity.
Qed.

End ResamplingFacts.

Lemma smoothing_spline_outlives_edits_witness :
  exists f,
    smoothing_spline
      (fold_left (fun t e => apply_edit e t) [Add 50 9; Delete (10, 5)]
                 (final_state (apply_smoothing polynomial_fit 0 scenario_canvas)))
    = Some f
    /\ polynomial_fit (map px (points scenario_canvas))
                      (map py (points scenario_canvas)) 0 = Some f.
Proof.
  destruct (smoothing_spline_outlives_edits
              polynomial_fit 0 10 [Add 50 9; Delete (10, 5)] scenario_canvas
              (final_state (apply_smoothing polynomial_fit 0 scenario_canvas)))
    as [f [H1 [H2 _]]].
  - simpl. lia.
  - reflexivity.
  - exists f. split; [exact H2 | exact H1].
Defined.

Lemma interpolation_output_shape_witness :
  points (final_state (interpolate_points polynomial_fit 10 fractional_canvas))
  = points fractional_canvas.
Proof.
  apply (interpolation_output_shape polynomial_fit 10 fractional_canvas
           (final_state (interpolate_points polynomial_fit 10 fractional_canvas))
           (points fractional_canvas)); reflexivity.
Defined.

Lemma interpolated_points_apply_edit (e : Edit) (s : PlotCanvas) :
  interpolated_points (apply_edit e s) = interpolated_points s.
Proof.
  destruct e as [x y | o n | p]; simpl.
  - reflexivity.
  - unfold move_point. destruct (point_in o _); reflexivity.
  - unfold delete_point. destruct (point_in p _); reflexivity.
Qed.

(** X15: a stored interpolation is not dropped by a point edit or by
    undo: the synthesis goes on reading it, whatever the curve has
    become, until clear_interpolation, after which it reads the
    (re-sorted) curve. *)
Theorem stale_interpolation_feeds_synthesis
        (e : Edit) (s : PlotCanvas) (p : Point) (l : list Point) :
  interpolated_points s = Some (p :: l) ->
  base_points (apply_edit e s) = p :: l
  /\ base_points (undo s) = p :: l
  /\ base_points (clear_interpolation s) = list_sort (points s).
Proof.
  intro H. split; [|split].
  - unfold base_points. rewrite interpolated_points_apply_edit, H. reflexivity.
  - unfold base_points, undo. destruct (rev (history s)); simpl; rewrite H;
      reflexivity.
  - unfold base_points, clear_interpolation. simpl.
    apply (points_update_plot (with_interpolated (Some []) s)).
Qed.

Lemma stale_interpolation_feeds_synthesis_witness :
  base_points (apply_edit (Add 7 7) shadowed_canvas)
  = [(0, 0); (1 # 2, 1 # 2); (1, 1); (3 # 2, 1 # 2); (2, 0)].
Proof.
  apply (stale_interpolation_feeds_synthesis (Add 7 7) shadowed_canvas).
  reflexivity.
Defined.

(** * Further properties of the synthesis *)


Section SynthesisFacts.

Local Open Scope R_scope.

Variable UnivariateSpline : list Q -> list Q -> Q -> option (Q -> Q).
Variable np_interp : list Q -> list Q -> Q -> Q.

Lemma Rabs_le_interval (a b : R) : Rabs a <= b -> - b <= a <= b.
Proof. unfold Rabs. destruct (Rcase_abs a); lra. Qed.

Lemma vec_add_length (u v : list R) :
  length u = length v -> length (vec_add u v) = length u.
Proof.
  intro H. unfold vec_add. rewrite length_map, length_combine, H.
  apply Nat.min_id.
Qed.

Lemma tone_samples_length (sr : Z) (x_dense : list Q) (t : Tone) :
  length (tone_samples sr x_dense t) = length x_dense.
Proof. unfold tone_samples. apply length_map. Qed.

Lemma composite_length (tones : list Tone) (sr : Z) (x_dense : list Q) :
  length (composite_oscillator tones sr x_dense) = length x_dense.
Proof.
  unfold composite_oscillator.
  assert (H : forall v, length v = length x_dense ->
            length (fold_left
                      (fun v t => vec_add v (tone_samples sr x_dense t))
                      tones v) = length x_dense).
  { induction tones as [|t l IH]; intros v Hv; simpl; [exact Hv|].
    apply IH. rewrite vec_add_length; [exact Hv|].
    rewrite tone_samples_length. exact Hv. }
  apply H. unfold zeros. apply length_map.
Qed.

Lemma fold_Rmax_ge (l : list R) (a : R) :
  a <= fold_left Rmax l a /\ forall b, In b l -> b <= fold_left Rmax l a.
Proof.
  revert a. induction l as [|c l IH]; intro a; simpl.
  - split; [lra | intros b []].
  - destruct (IH (Rmax a c)) as [H1 H2].
    pose proof (Rmax_l a c). pose proof (Rmax_r a c).
    split; [lra|]. intros b [Hb | Hb]; [subst b; lra | apply H2; exact Hb].
Qed.

Lemma peak_abs_bounds (v : list R) (m : R) :
  peak_abs v = Some m -> 0 <= m /\ forall a, In a v -> Rabs a <= m.
Proof.
  unfold peak_abs. destruct v as [|a0 v]; simpl; [discriminate|].
  intro H. injection H as <-.
  destruct (fold_Rmax_ge (map Rabs v) (Rabs a0)) as [H1 H2]. split.
  - pose proof (Rabs_pos a0). lra.
  - intros a [Ha | Ha]; [subst a; exact H1|].
    apply H2. apply in_map. exact Ha.
Qed.

Lemma normalize_bounded (v : list R) (n : Normalized) :
  normalize v = Some n ->
  length (samples_of n) = length v
  /\ Forall (fun a => Rabs a <= 1) (samples_of n).
Proof.
  unfold normalize. destruct (peak_abs v) as [m|] eqn:E; [|discriminate].
  destruct (peak_abs_bounds v m E) as [Hm Hall].
  destruct (Rlt_dec 0 m) as [Hpos | Hnpos]; intro H; injection H as <-; simpl.
  - split; [apply length_map|].
    apply Forall_forall. intros b Hb. apply in_map_iff in Hb.
    destruct Hb as [a [<- Ha]].
    rewrite Rabs_scale by exact Hpos.
    apply Rmult_le_reg_l with m; [exact Hpos|].
    rewrite <- Rmult_assoc, Rinv_r, Rmult_1_l, Rmult_1_r by lra.
    apply Hall. exact Ha.
  - split; [reflexivity|].
    apply Forall_forall. intros a Ha. pose proof (Hall a Ha). lra.
Qed.

(** X16: whenever the normalization returns, the oscillator has one
    sample per grid point and every sample lies in [-1, 1]. *)
Theorem normalized_oscillator_bounded
        (tones : list Tone) (sr : Z) (x_dense : list Q) (n : Normalized) :
  normalized_oscillator tones sr x_dense = Some n ->
  length (samples_of n) = length x_dense
  /\ Forall (fun a => -1 <= a <= 1) (samples_of n).
Proof.
  intro H. unfold normalized_oscillator in H.
  destruct (normalize_bounded _ _ H) as [Hl Hb].
  split; [rewrite Hl; apply composite_length|].
  apply Forall_forall. intros a Ha.
  rewrite Forall_forall in Hb. specialize (Hb a Ha).
  apply Rabs_le_interval. exact Hb.
Qed.

Lemma normalized_oscillator_bounded_witness :
  length (samples_of (Untouched [0; 0])) = 2%nat
  /\ Forall (fun a => -1 <= a <= 1) (samples_of (Untouched [0; 0])).
Proof.
  apply (normalized_oscillator_bounded [(5%Z, 0%Q); (7%Z, 0%Q)] 1000
                                       [0%Q; 1%Q]).
  unfold normalized_oscillator, normalize.
  rewrite (composite_zero_amplitudes [(5%Z, 0%Q); (7%Z, 0%Q)] 1000 [0%Q; 1%Q])
    by (repeat constructor).
  rewrite peak_abs_zeros by discriminate.
  destruct (Rlt_dec 0 0) as [H | H]; [lra | reflexivity].
Defined.

Lemma envelope_length (base : list Point) (x_dense y_dense : list Q) :
  envelope UnivariateSpline np_interp base x_dense = Some y_dense ->
  length y_dense = length x_dense.
Proof.
  unfold envelope.
  destruct ((4 <=? length (map px base))%nat && all_diff_pos (map px base)).
  - destruct (UnivariateSpline _ _ _); [|discriminate].
    intro H. injection H as <-. apply length_map.
  - intro H. injection H as <-. apply length_map.
Qed.

Lemma nth_error_combine (A B : Type) (a : list A) (b : list B) (i : nat)
      (x : A) (y : B) :
  nth_error (combine a b) i = Some (x, y) ->
  nth_error a i = Some x /\ nth_error b i = Some y.
Proof.
  revert b i. induction a as [|a0 a IH]; intros b i; simpl.
  - destruct i; discriminate.
  - destruct b as [|b0 b]; [destruct i; discriminate|].
    destruct i as [|i]; simpl.
    + intro H. injection H as <- <-. split; reflexivity.
    + apply IH.
Qed.

Lemma modulate_bound (y_dense : list Q) (vibration : list R) (amp : Q)
      (i : nat) (v : R) (y : Q) :
  Forall (fun a => -1 <= a <= 1) vibration ->
  nth_error (modulate y_dense vibration amp) i = Some v ->
  nth_error y_dense i = Some y ->
  Rabs v <= Rabs (Q2R y) * Rabs (Q2R amp).
Proof.
  intros Hb Hv Hy. unfold modulate in Hv.
  rewrite nth_error_map in Hv.
  destruct (nth_error (combine y_dense vibration) i) as [[y' w]|] eqn:E;
    [|discriminate].
  simpl in Hv. injection Hv as <-.
  destruct (nth_error_combine _ _ _ _ _ _ _ E) as [Hy' Hw].
  rewrite Hy in Hy'. injection Hy' as <-.
  rewrite Forall_forall in Hb.
  assert (Hw1 : Rabs w <= 1)
    by (apply Rabs_le, Hb; eapply nth_error_In; exact Hw).
  rewrite !Rabs_mult.
  pose proof (Rabs_pos (Q2R y)). pose proof (Rabs_pos (Q2R amp)).
  pose proof (Rabs_pos w).
  apply Rmult_le_compat_r; [assumption|].
  rewrite <- (Rmult_1_r (Rabs (Q2R y))) at 2.
  apply Rmult_le_compat_l; assumption.
Qed.

Lemma combine_fst (A B : Type) (a : list A) (b : list B) :
  length a = length b -> map fst (combine a b) = a.
Proof.
  revert b. induction a as [|a0 a IH]; intros [|b0 b] H; simpl in *;
    try reflexivity; try discriminate.
  rewrite IH by lia. reflexivity.
Qed.

Lemma modulate_length (y_dense : list Q) (vibration : list R) (amp : Q) :
  length y_dense = length vibration ->
  length (modulate y_dense vibration amp) = length y_dense.
Proof.
  intro H. unfold modulate. rewrite length_map, length_combine, H.
  apply Nat.min_id.
Qed.

(** X17: whenever the multi-tone synthesis stores a signal, the tone
    list was not empty and at least two base points were there; the
    signal has one sample per point of the grid built from the base
    points, at least one, paired with that grid; and the absolute value
    of each sample is at most that of the envelope there times that of
    the global amplitude.  The curve comes out re-sorted. *)
Theorem multi_tone_signal_shape
        (tones : list Tone) (sr : Z) (amp : Q) (s s' : PlotCanvas)
        (syn : Synthesis) :
  generate_multi_frequency_vibration UnivariateSpline np_interp tones sr amp s
  = inr (syn, s') ->
  tones <> []
  /\ (2 <= length (base_points s))%nat
  /\ envelope_x syn = vibration_grid (base_points s) sr
  /\ (1 <= length (envelope_x syn))%nat
  /\ length (envelope_y syn) = length (envelope_x syn)
  /\ map fst (vibration_signal syn) = envelope_x syn
  /\ (forall i x v y,
        nth_error (vibration_signal syn) i = Some (x, v) ->
        nth_error (envelope_y syn) i = Some y ->
        Rabs v <= Rabs (Q2R y) * Rabs (Q2R amp))
  /\ points s' = list_sort (points s).
Proof.
  unfold generate_multi_frequency_vibration.
  destruct tones as [|t tones]; [discriminate|].
  destruct (Nat.ltb_spec (length (base_points s)) 2) as [|Hlen];
    [discriminate|].
  destruct (envelope UnivariateSpline np_interp (base_points s)
                     (vibration_grid (base_points s) sr))
    as [y_dense|] eqn:Ee; [|discriminate].
  destruct (normalized_oscillator (t :: tones) sr
                                  (vibration_grid (base_points s) sr))
    as [n|] eqn:En; [|discriminate].
  intro H. injection H as <- <-. simpl.
  pose proof (envelope_length _ _ _ Ee) as Hy.
  assert (Hn : length (samples_of n)
               = length (vibration_grid (base_points s) sr)
               /\ Forall (fun a => -1 <= a <= 1) (samples_of n)).
  { unfold normalized_oscillator in En.
    destruct (normalize_bounded _ _ En) as [Hl Hb].
    split; [rewrite Hl; apply composite_length|].
    apply Forall_forall. intros a Ha.
    rewrite Forall_forall in Hb. apply Rabs_le_interval, Hb, Ha. }
  destruct Hn as [Hnl Hnb].
  split; [discriminate|]. split; [exact Hlen|]. split; [reflexivity|].
  split.
  { unfold normalized_oscillator, normalize in En.
    destruct (peak_abs _) eqn:Ep; [|discriminate].
    unfold peak_abs in Ep.
    pose proof (composite_length (t :: tones) sr
                                 (vibration_grid (base_points s) sr)) as Hc.
    destruct (composite_oscillator (t :: tones) sr
                                   (vibration_grid (base_points s) sr));
      [discriminate|].
    simpl in Hc. lia. }
  split; [exact Hy|]. split.
  { apply combine_fst. rewrite modulate_length; lia. }
  split; [|apply points_update_plot].
  intros i x v y Hv Hyi.
  destruct (nth_error_combine _ _ _ _ _ _ _ Hv) as [_ Hv'].
  exact (modulate_bound _ _ _ _ _ _ Hnb Hv' Hyi).
Qed.

Lemma sine_wave_bounded (f sr : Z) (x_dense : list Q) :
  length (sine_wave f sr x_dense) = length x_dense
  /\ Forall (fun a => -1 <= a <= 1) (sine_wave f sr x_dense).
Proof.
  unfold sine_wave. split; [apply length_map|].
  apply Forall_forall. intros a Ha. apply in_map_iff in Ha.
  destruct Ha as [x [<- _]]. apply SIN_bound.
Qed.

(** X18: whenever the single-tone synthesis stores a signal, at least
    two base points were there, the signal is paired with the grid
    built from them (possibly empty), and the absolute value of each
    sample is at most that of the envelope there times that of the
    amplitude scale. *)
Theorem single_tone_signal_shape
        (f : Z) (amp : Q) (sr : Z) (s s' : PlotCanvas) (syn : Synthesis) :
  generate_vibration_signal UnivariateSpline np_interp f amp sr s
  = inr (syn, s') ->
  (2 <= length (base_points s))%nat
  /\ envelope_x syn = vibration_grid (base_points s) sr
  /\ length (envelope_y syn) = length (envelope_x syn)
  /\ map fst (vibration_signal syn) = envelope_x syn
  /\ (forall i x v y,
        nth_error (vibration_signal syn) i = Some (x, v) ->
        nth_error (envelope_y syn) i = Some y ->
        Rabs v <= Rabs (Q2R y) * Rabs (Q2R amp))
  /\ points s' = list_sort (points s).
Proof.
  unfold generate_vibration_signal.
  destruct (Nat.ltb_spec (length (base_points s)) 2) as [|Hlen];
    [discriminate|].
  destruct (envelope UnivariateSpline np_interp (base_points s)
                     (vibration_grid (base_points s) sr))
    as [y_dense|] eqn:Ee; [|discriminate].
  intro H. injection H as <- <-. simpl.
  pose proof (envelope_length _ _ _ Ee) as Hy.
  destruct (sine_wave_bounded f sr (vibration_grid (base_points s) sr))
    as [Hsl Hsb].
  split; [exact Hlen|]. split; [reflexivity|]. split; [exact Hy|].
  split.
  { apply combine_fst. rewrite modulate_length; lia. }
  split; [|apply points_update_plot].
  intros i x v y Hv Hyi.
  destruct (nth_error_combine _ _ _ _ _ _ _ Hv) as [_ Hv'].
  exact (modulate_bound _ _ _ _ _ _ Hsb Hv' Hyi).
Qed.


End SynthesisFacts.

Section SynthesisRuns.

Local Open Scope R_scope.

Variable UnivariateSpline : list Q -> list Q -> Q -> option (Q -> Q).
Variable np_interp : list Q -> list Q -> Q -> Q.

Lemma envelope_linear (base : list Point) (x_dense : list Q) :
  (length base < 4)%nat ->
  envelope UnivariateSpline np_interp base x_dense
  = Some (map (np_interp (map px base) (map py base)) x_dense).
Proof.
  intro H. unfold envelope. rewrite length_map.
  destruct (Nat.leb_spec 4 (length base)); [lia | reflexivity].
Qed.

Lemma normalized_oscillator_some (tones : list Tone) (sr : Z)
      (x_dense : list Q) :
  x_dense <> [] -> exists n, normalized_oscillator tones sr x_dense = Some n.
Proof.
  intro H. unfold normalized_oscillator, normalize, peak_abs.
  pose proof (composite_length tones sr x_dense) as Hc.
  destruct (composite_oscillator tones sr x_dense) as [|a v].
  - destruct x_dense; [congruence | discriminate].
  - simpl. destruct (Rlt_dec 0 (fold_left Rmax (map Rabs v) (Rabs a)));
      eexists; reflexivity.
Qed.

Lemma multi_tone_succeeds (tones : list Tone) (sr : Z) (amp : Q)
      (s : PlotCanvas) :
  tones <> [] -> (2 <= length (base_points s) < 4)%nat ->
  vibration_grid (base_points s) sr <> [] ->
  exists syn s',
    generate_multi_frequency_vibration UnivariateSpline np_interp tones sr
                                       amp s = inr (syn, s').
Proof.
  intros Ht Hlen Hg. unfold generate_multi_frequency_vibration.
  destruct tones as [|t tones]; [congruence|].
  destruct (Nat.ltb_spec (length (base_points s)) 2); [lia|].
  rewrite envelope_linear by lia.
  destruct (normalized_oscillator_some (t :: tones) sr _ Hg) as [n Hn].
  rewrite Hn. eexists. eexists. reflexivity.
Qed.

Lemma single_tone_succeeds (f : Z) (amp : Q) (sr : Z) (s : PlotCanvas) :
  (2 <= length (base_points s) < 4)%nat ->
  exists syn s',
    generate_vibration_signal UnivariateSpline np_interp f amp sr s
    = inr (syn, s').
Proof.
  intro Hlen. unfold generate_vibration_signal.
  destruct (Nat.ltb_spec (length (base_points s)) 2); [lia|].
  rewrite envelope_linear by lia. eexists. eexists. reflexivity.
Qed.

End SynthesisRuns.

Lemma multi_tone_signal_shape_witness :
  exists syn s',
    generate_multi_frequency_vibration polynomial_fit linear_interp
      [(100%Z, 1); (250%Z, 1 # 2)] 1000 1 two_point_canvas = inr (syn, s')
    /\ length (envelope_x syn) = 4%nat
    /\ map fst (vibration_signal syn) = envelope_x syn.
Proof.
  destruct (multi_tone_succeeds polynomial_fit linear_interp
              [(100%Z, 1); (250%Z, 1 # 2)] 1000 1 two_point_canvas)
    as [syn [s' E]].
  - discriminate.
  - simpl. lia.
  - discriminate.
  - exists syn, s'. split; [exact E|].
    destruct (multi_tone_signal_shape _ _ _ _ _ _ _ _ E)
      as [_ [_ [Hx [_ [_ [Hf _]]]]]].
    split; [rewrite Hx; reflexivity | exact Hf].
Defined.

Lemma single_tone_signal_shape_witness :
  exists syn s',
    generate_vibration_signal polynomial_fit linear_interp 100 1 1000
                              two_point_canvas = inr (syn, s')
    /\ length (map fst (vibration_signal syn)) = 4%nat.
Proof.
  destruct (single_tone_succeeds polynomial_fit linear_interp 100 1 1000
                                 two_point_canvas) as [syn [s' E]].
  - simpl. lia.
  - exists syn, s'. split; [exact E|].
    destruct (single_tone_signal_shape _ _ _ _ _ _ _ _ E)
      as [_ [Hx [_ [Hf _]]]].
    rewrite Hf, Hx. reflexivity.
Defined.


Section ScalingFacts.

Local Open Scope R_scope.

Lemma tone_samples_scale (sr : Z) (x_dense : list Q) (f : Z) (a c : Q) :
  tone_samples sr x_dense (f, (c * a)%Q)
  = map (Rmult (Q2R c)) (tone_samples sr x_dense (f, a)).
Proof.
  unfold tone_samples. rewrite map_map. apply map_ext. intro x. simpl.
  rewrite Q2R_mult. ring.
Qed.

Lemma vec_add_scale (c : R) (u v : list R) :
  vec_add (map (Rmult c) u) (map (Rmult c) v) = map (Rmult c) (vec_add u v).
Proof.
  unfold vec_add. revert v. induction u as [|a u IH]; intros [|b v]; simpl;
    try reflexivity.
  rewrite IH. f_equal. ring.
Qed.

Lemma composite_scale (c : Q) (tones : list Tone) (sr : Z) (x_dense : list Q) :
  composite_oscillator (map (fun t => (fst t, (c * snd t)%Q)) tones) sr x_dense
  = map (Rmult (Q2R c)) (composite_oscillator tones sr x_dense).
Proof.
  unfold composite_oscillator.
  assert (Hz : zeros x_dense = map (Rmult (Q2R c)) (zeros x_dense)).
  { unfold zeros. rewrite map_map. apply map_ext. intro x. ring. }
  rewrite Hz at 1. generalize (zeros x_dense) as v.
  induction tones as [|[f a] tones IH]; intro v; simpl; [reflexivity|].
  rewrite tone_samples_scale, vec_add_scale. apply IH.
Qed.

Lemma normalize_scale (c : R) (v : list R) :
  0 < c -> normalize (map (Rmult c) v) = normalize v.
Proof.
  intro Hc. unfold normalize.
  destruct (peak_abs v) as [p|] eqn:Ep.
  - assert (Hs : peak_abs (map (Rmult c) v) = Some (c * p)).
    { rewrite (map_ext (Rmult c) (fun a => a / (/ c)))
        by (intro a; field; lra).
      rewrite (peak_abs_scale (/ c) p v (Rinv_0_lt_compat c Hc) Ep).
      f_equal. rewrite Rinv_inv. reflexivity. }
    rewrite Hs. destruct (peak_abs_bounds v p Ep) as [Hp Hall].
    destruct (Rlt_dec 0 (c * p)) as [H1 | H1], (Rlt_dec 0 p) as [H2 | H2].
    + f_equal. f_equal. rewrite map_map. apply map_ext. intro a. field. lra.
    + exfalso. apply H2.
      destruct (Rle_lt_or_eq_dec 0 p Hp) as [Hlt | Heq]; [exact Hlt|].
      rewrite <- Heq, Rmult_0_r in H1. lra.
    + exfalso. apply H1. apply Rmult_lt_0_compat; assumption.
    + f_equal. f_equal. rewrite <- (map_id v) at 2. apply map_ext_in.
      intros a Ha. pose proof (Hall a Ha) as Hb. pose proof (Rabs_pos a).
      assert (Ha0 : a = 0).
      { destruct (Req_dec a 0) as [E | E]; [exact E|].
        pose proof (Rabs_pos_lt a E). lra. }
      rewrite Ha0. ring.
  - assert (Hs : peak_abs (map (Rmult c) v) = None).
    { unfold peak_abs in *. destruct v; [reflexivity | discriminate]. }
    rewrite Hs. reflexivity.
Qed.

(** X20: the normalized oscillator depends on the tone amplitudes
    only through their ratios: multiplying every amplitude by one
    positive factor leaves it, and the branch taken, unchanged. *)
Theorem tone_amplitudes_matter_by_ratio
        (c : Q) (tones : list Tone) (sr : Z) (x_dense : list Q) :
  (0 < c)%Q ->
  normalized_oscillator (map (fun t => (fst t, (c * snd t)%Q)) tones)
                        sr x_dense
  = normalized_oscillator tones sr x_dense.
Proof.
  intro Hc. unfold normalized_oscillator. rewrite composite_scale.
  apply normalize_scale.
  rewrite <- RMicromega.Q2R_0. apply Qlt_Rlt. exact Hc.
Qed.

Lemma tone_amplitudes_matter_by_ratio_witness :
  normalized_oscillator [(100%Z, (2 * 1)%Q); (250%Z, (2 * (1 # 2))%Q)]
                        1000 [0%Q; 1%Q]
  = normalized_oscillator [(100%Z, 1%Q); (250%Z, (1 # 2)%Q)] 1000 [0%Q; 1%Q].
Proof.
  apply (tone_amplitudes_matter_by_ratio
           2 [(100%Z, 1%Q); (250%Z, (1 # 2)%Q)] 1000 [0%Q; 1%Q]).
  reflexivity.
Defined.

(** ** Further properties of the spectrum *)

Lemma magnitude_spectrum_value (y : list R) (rate : Z) :
  y <> [] -> rate <> 0%Z ->
  magnitude_spectrum y rate
  = inr (firstn (length y / 2)
                (fftfreq (length y) (1 / inject_Z rate)%Q),
         map (fun z => 2 / INR (length y) * Cabs z)
             (firstn (length y / 2) (fft y))).
Proof.
  intros Hy Hr. unfold magnitude_spectrum.
  destruct (Z.eqb_spec rate 0); [congruence|].
  destruct y; [congruence | reflexivity].
Qed.

Lemma dft_sum_at_zero (N : R) (y : list R) (start : nat) :
  fold_right
    (fun ny acc =>
       let w := 2 * PI * INR 0 * INR (fst ny) / N in
       (fst acc + snd ny * cos w, snd acc - snd ny * sin w))
    (0, 0) (combine (seq start (length y)) y)
  = (fold_right Rplus 0 y, 0).
Proof.
  revert start. induction y as [|a y IH]; intro start; simpl; [reflexivity|].
  rewrite IH. simpl.
  replace (2 * PI * 0 * INR start / N) with 0 by (unfold Rdiv; ring).
  rewrite cos_0, sin_0. f_equal; ring.
Qed.

Lemma Cabs_real (a : R) : Cabs (a, 0) = Rabs a.
Proof.
  unfold Cabs. simpl. replace (a * a + 0 * 0) with (Rsqr a)
    by (unfold Rsqr; ring).
  apply sqrt_Rsqr_abs.
Qed.

Lemma Cabs_nonneg (z : R * R) : 0 <= Cabs z.
Proof. unfold Cabs. apply sqrt_pos. Qed.

(** X21: for a signal of at least 2 samples and a non-zero rate, the
    first frequency bin is 0 and its magnitude is 2/N times the absolute
    value of the sum of the samples (twice the absolute mean); no
    magnitude is negative. *)
Theorem spectrum_dc_bin (y : list R) (rate : Z) :
  (2 <= length y)%nat -> rate <> 0%Z ->
  exists xf mag,
    magnitude_spectrum y rate = inr (xf, mag)
    /\ (nth 0 xf 0 == 0)%Q
    /\ nth 0 mag 0 = 2 / INR (length y) * Rabs (fold_right Rplus 0 y)
    /\ Forall (fun m => 0 <= m) mag.
Proof.
  intros Hlen Hr.
  assert (Hy : y <> []) by (destruct y; [simpl in Hlen; lia | discriminate]).
  eexists. eexists. split; [apply magnitude_spectrum_value; assumption|].
  assert (Hhalf : (0 < length y / 2)%nat) by (apply Nat.div_str_pos; lia).
  assert (HN : 0 < INR (length y)) by (apply lt_0_INR; lia).
  split; [|split].
  - rewrite nth_firstn.
    destruct (Nat.ltb_spec 0 (length y / 2)); [|lia].
    rewrite fftfreq_nth by exact Hhalf. simpl. apply Qmult_0_l.
  - set (g := fun z : R * R => 2 / INR (length y) * Cabs z).
    assert (Hl : (0 < length (firstn (length y / 2) (fft y)))%nat).
    { rewrite firstn_length_le; [exact Hhalf|].
      unfold fft. rewrite length_map, length_seq.
      apply Nat.Div0.div_le_upper_bound. lia. }
    rewrite (nth_indep _ 0 (g (0, 0))) by (rewrite length_map; exact Hl).
    rewrite (map_nth g), nth_firstn.
    destruct (Nat.ltb_spec 0 (length y / 2)); [|lia].
    rewrite fft_nth by lia. unfold g, dft_bin.
    rewrite dft_sum_at_zero, Cabs_real. reflexivity.
  - apply Forall_forall. intros m Hm. apply in_map_iff in Hm.
    destruct Hm as [z [<- _]].
    apply Rmult_le_pos; [|apply Cabs_nonneg].
    apply Rlt_le, Rdiv_lt_0_compat; lra.
Qed.

Lemma spectrum_dc_bin_witness :
  exists xf mag,
    magnitude_spectrum [1; 2; 3; 4] 1000 = inr (xf, mag)
    /\ nth 0 mag 0
       = 2 / INR 4 * Rabs (fold_right Rplus 0 [1; 2; 3; 4]).
Proof.
  destruct (spectrum_dc_bin [1; 2; 3; 4] 1000) as [xf [mag [H1 [_ [H3 _]]]]].
  - simpl. lia.
  - discriminate.
  - exists xf, mag. split; [exact H1 | exact H3].
Defined.

Lemma dft_bin_scale_fold (c N : R) (k : nat) (y : list R) (idx : list nat) :
  let g := fun (ny : nat * R) (acc : R * R) =>
             let w := 2 * PI * INR k * INR (fst ny) / N in
             (fst acc + snd ny * cos w, snd acc - snd ny * sin w) in
  fold_right g (0, 0) (combine idx (map (Rmult c) y))
  = (c * fst (fold_right g (0, 0) (combine idx y)),
     c * snd (fold_right g (0, 0) (combine idx y))).
Proof.
  simpl. revert idx. induction y as [|a y IH]; intros [|i idx]; simpl;
    try (f_equal; ring).
  rewrite IH. simpl. f_equal; ring.
Qed.

Lemma dft_bin_scale (c : R) (y : list R) (k : nat) :
  dft_bin (map (Rmult c) y) k
  = (c * fst (dft_bin y k), c * snd (dft_bin y k)).
Proof.
  unfold dft_bin. rewrite length_map.
  apply (dft_bin_scale_fold c (INR (length y)) k y (seq 0 (length y))).
Qed.

Lemma Cabs_scale (c : R) (z : R * R) :
  Cabs (c * fst z, c * snd z) = Rabs c * Cabs z.
Proof.
  unfold Cabs. simpl.
  replace (c * fst z * (c * fst z) + c * snd z * (c * snd z))
    with (Rsqr c * (fst z * fst z + snd z * snd z)) by (unfold Rsqr; ring).
  rewrite sqrt_mult; [rewrite sqrt_Rsqr_abs; reflexivity | apply Rle_0_sqr |].
  pose proof (Rle_0_sqr (fst z)). pose proof (Rle_0_sqr (snd z)).
  unfold Rsqr in *. lra.
Qed.

(** X22: the spectrum is homogeneous: multiplying every sample of a
    non-empty signal by c leaves the frequency bins as they are and
    multiplies every magnitude by the absolute value of c (so the zero
    signal has zero magnitudes). *)
Theorem spectrum_homogeneous (c : R) (y : list R) (rate : Z) :
  y <> [] -> rate <> 0%Z ->
  exists xf mag,
    magnitude_spectrum y rate = inr (xf, mag)
    /\ magnitude_spectrum (map (Rmult c) y) rate
       = inr (xf, map (Rmult (Rabs c)) mag).
Proof.
  intros Hy Hr. eexists. eexists.
  split; [apply magnitude_spectrum_value; assumption|].
  rewrite magnitude_spectrum_value;
    [| destruct y; [congruence | discriminate] | exact Hr].
  rewrite length_map. f_equal. f_equal.
  assert (Hfft : fft (map (Rmult c) y)
                 = map (fun z => (c * fst z, c * snd z)) (fft y)).
  { unfold fft. rewrite length_map, map_map. apply map_ext. intro k.
    apply dft_bin_scale. }
  rewrite Hfft, firstn_map, !map_map. apply map_ext. intro z.
  rewrite Cabs_scale. ring.
Qed.

Lemma spectrum_homogeneous_witness :
  exists xf mag,
    magnitude_spectrum [1; 2; 3; 4] 1000 = inr (xf, mag)
    /\ magnitude_spectrum (map (Rmult (-3)) [1; 2; 3; 4]) 1000
       = inr (xf, map (Rmult (Rabs (-3))) mag).
Proof.
  apply (spectrum_homogeneous (-3) [1; 2; 3; 4] 1000); discriminate.
Defined.

End ScalingFacts.

Section SmoothingFacts.

Variable UnivariateSpline : list Q -> list Q -> Q -> option (Q -> Q).

(** X23: apply_smoothing always records the new factor.  With fewer
    than 2 points it fits nothing and the stored spline stays as it
    was; with at least 2 points, when the fit fails the error leaves
    the curve and the previously stored spline in place beside the new
    factor, and when it succeeds the new spline is stored and the curve
    is re-sorted. *)
Theorem apply_smoothing_effects (factor : Q) (s : PlotCanvas) :
  smoothing_factor (final_state (apply_smoothing UnivariateSpline factor s))
  = Some factor
  /\ ((length (points s) < 2)%nat ->
      exists s1, apply_smoothing UnivariateSpline factor s = Done s1
                 /\ smoothing_spline s1 = smoothing_spline s)
  /\ ((2 <= length (points s))%nat ->
      UnivariateSpline (map px (points s)) (map py (points s)) factor = None ->
      exists s1, apply_smoothing UnivariateSpline factor s = Failed FitError s1
                 /\ smoothing_spline s1 = smoothing_spline s
                 /\ points s1 = points s)
  /\ (forall f,
        (2 <= length (points s))%nat ->
        UnivariateSpline (map px (points s)) (map py (points s)) factor
        = Some f ->
        exists s1, apply_smoothing UnivariateSpline factor s = Done s1
                   /\ smoothing_spline s1 = Some f
                   /\ points s1 = list_sort (points s)).
Proof.
  unfold apply_smoothing.
  change (points (mkCanvas (store s) (history s) (interpolated_points s)
                           (smoothing_spline s) (Some factor)))
    with (points s).
  split; [|split; [|split]].
  - destruct (1 <? length (points s))%nat; [|reflexivity].
    destruct (UnivariateSpline _ _ factor); reflexivity.
  - intro H. destruct (Nat.ltb_spec 1 (length (points s))); [lia|].
    eexists. split; reflexivity.
  - intros H Hf. destruct (Nat.ltb_spec 1 (length (points s))); [|lia].
    rewrite Hf. eexists. repeat split.
  - intros f H Hf. destruct (Nat.ltb_spec 1 (length (points s))); [|lia].
    rewrite Hf. eexists. split; [reflexivity|]. split; [reflexivity|].
    apply (points_update_plot
             (mkCanvas (store s) (history s) (interpolated_points s)
                       (Some f) (Some factor))).
Qed.

End SmoothingFacts.

(** * Further properties of the handlers *)

Lemma truthy_zero (v : option Q) (q : Q) :
  v = Some q -> q == 0 -> truthy v = false.
Proof.
  intros -> H. unfold truthy. apply negb_false_iff, Qeq_bool_iff. exact H.
Qed.

(** X24: a mouse position whose x or whose y is exactly 0 counts as no
    position: a click there (with or without Ctrl) adds and selects
    nothing, and a drag to it moves nothing. *)
Theorem zero_coordinate_ignored (ctrl : bool) (ev : MouseEvent) (a : App) :
  (exists q, xdata ev = Some q /\ q == 0)
  \/ (exists q, ydata ev = Some q /\ q == 0) ->
  on_click ctrl ev a = a /\ on_move ev a = a.
Proof.
  intro H.
  assert (Ht : truthy (xdata ev) && truthy (ydata ev) = false).
  { destruct H as [[q [Hq H0]] | [q [Hq H0]]].
    - rewrite (truthy_zero _ q Hq H0). reflexivity.
    - rewrite (truthy_zero _ q Hq H0). apply andb_false_r. }
  split.
  - unfold on_click. rewrite Ht.
    destruct ((button ev =? 1)%Z && ctrl); [reflexivity|].
    destruct (button ev =? 1)%Z; reflexivity.
  - unfold on_move. rewrite Ht, andb_false_r.
    destruct (selected_point a); reflexivity.
Qed.

Lemma zero_coordinate_ignored_witness :
  on_click true (mkEvent 1 (Some 5) (Some 0)) (mkApp initial_canvas None)
  = mkApp initial_canvas None.
Proof.
  apply (zero_coordinate_ignored true (mkEvent 1 (Some 5) (Some 0))
                                 (mkApp initial_canvas None)).
  right. exists 0. split; reflexivity.
Defined.

(** X25: loading a non-empty point list makes the re-sorted list both
    the curve and the original curve, and keeps the history and a stored
    interpolation of the curve loaded before: the synthesis goes on
    reading that interpolation, and undo brings back a curve of before
    the load. *)
Theorem load_keeps_derived_state
        (pts : list Point) (s : PlotCanvas) (p : Point) (l : list Point) :
  pts <> [] -> interpolated_points s = Some (p :: l) ->
  points (load_points pts s) = list_sort pts
  /\ original_points (load_points pts s) = list_sort pts
  /\ history (load_points pts s) = history s
  /\ base_points (load_points pts s) = p :: l
  /\ (forall h top, history s = h ++ [top] ->
        points (undo (load_points pts s)) = list_sort top
        /\ original_points (undo (load_points pts s)) = list_sort pts).
Proof.
  intros Hne Hip. destruct pts as [|p0 pts]; [congruence|].
  assert (Hh : history (load_points (p0 :: pts) s) = history s) by reflexivity.
  split; [reflexivity|]. split; [reflexivity|]. split; [exact Hh|]. split.
  - unfold base_points, load_points. simpl. rewrite Hip. reflexivity.
  - intros h top Htop. rewrite Htop in Hh.
    destruct (undo_pops _ _ _ Hh) as [H1 [_ H3]].
    split; [exact H1 | rewrite H3; reflexivity].
Qed.

Lemma load_keeps_derived_state_witness :
  base_points (load_points [(9, 9); (8, 8)] shadowed_canvas)
  = [(0, 0); (1 # 2, 1 # 2); (1, 1); (3 # 2, 1 # 2); (2, 0)].
Proof.
  refine (proj1 (proj2 (proj2 (proj2
            (load_keeps_derived_state [(9, 9); (8, 8)] shadowed_canvas
               (0, 0) [(1 # 2, 1 # 2); (1, 1); (3 # 2, 1 # 2); (2, 0)] _ _))))).
  - discriminate.
  - reflexivity.
Defined.
